(** * Redaction and restoration of sensitive substrings (example-main.ts)

    A shallow embedding of the redaction / restoration core of
    [example-main.ts]: the PII pattern catalog, [pad4], [redactText],
    [PLACEHOLDER_RE], [unredactOnce] and [makeStreamUnredactor], together
    with the part of the JavaScript runtime they rest on (regular
    expression matching by backtracking, [String.prototype.matchAll],
    [replace], [split], [Array.prototype.join], [padStart]). *)

From Stdlib Require Import String Ascii List NArith ZArith Arith Bool Lia.
From Stdlib Require DecimalFacts DecimalPos DecimalN.
Import ListNotations.

(* ================================================================== *)
(** ** JavaScript strings *)

(** A JavaScript string is a finite sequence of UTF-16 code units.  None of
    the regular expressions of the program carries the [u] or [i] flag, so
    matching works code unit by code unit. *)
Definition char := N.
Definition jsstring := list char.

(** String literals of the source, written as Rocq strings. *)
Definition str (s : string) : jsstring :=
  map N_of_ascii (list_ascii_of_string s).

Fixpoint eqb_str (a b : jsstring) : bool :=
  match a, b with
  | [], [] => true
  | x :: a', y :: b' => (x =? y)%N && eqb_str a' b'
  | _, _ => false
  end.

(** [starts_with p s]: [p] is a prefix of [s]. *)
Fixpoint starts_with (p s : jsstring) : bool :=
  match p, s with
  | [], _ => true
  | x :: p', y :: s' => (x =? y)%N && starts_with p' s'
  | _ :: _, [] => false
  end.

(** [occurs p s]: [p] occurs in [s] as a contiguous substring
    ([s.includes(p)]). *)
Fixpoint occurs (p s : jsstring) : bool :=
  starts_with p s ||
  match s with
  | [] => false
  | _ :: s' => occurs p s'
  end.

(** Character classes of the regular expressions. *)
Definition in_range (lo hi c : N) : bool := ((lo <=? c) && (c <=? hi))%N.

Definition is_digit (c : char) : bool := in_range 48 57 c.
Definition is_upper (c : char) : bool := in_range 65 90 c.
Definition is_lower (c : char) : bool := in_range 97 122 c.
Definition is_alpha (c : char) : bool := is_upper c || is_lower c.

(** [\w] is [[A-Za-z0-9_]]. *)
Definition is_word (c : char) : bool :=
  is_alpha c || is_digit c || (c =? 95)%N.

(** [[A-Za-z0-9._%+-]] *)
Definition is_email_local (c : char) : bool :=
  is_alpha c || is_digit c ||
  (c =? 46)%N || (c =? 95)%N || (c =? 37)%N || (c =? 43)%N || (c =? 45)%N.

(** [[A-Za-z0-9.-]] *)
Definition is_email_domain (c : char) : bool :=
  is_alpha c || is_digit c || (c =? 46)%N || (c =? 45)%N.

(** [[ .-]] *)
Definition is_phone_sep (c : char) : bool :=
  (c =? 32)%N || (c =? 46)%N || (c =? 45)%N.

(* ================================================================== *)
(** ** Regular expressions *)

(** The fragment of ECMAScript regular expressions the program uses.
    Every quantifier of the source applies to a character class or to a
    non-capturing group that cannot match the empty string. *)
Inductive regex : Type :=
| Chr (c : char)                                   (* a literal character *)
| Seq (r1 r2 : regex)                              (* r1 r2 *)
| Alt (r1 r2 : regex)                              (* r1|r2 *)
| Opt (r : regex)                                  (* (?:r)? *)
| Rep (p : char -> bool) (lo : nat) (hi : option nat) (* [p]{lo,hi}, greedy *)
| WordBoundary                                     (* \b *)
| NotPrecededBy (p : char -> bool)                 (* (?<![p]) *)
| NotFollowedBy (p : char -> bool).                (* (?![p]) *)

(** A literal string is the sequence of its characters. *)
Fixpoint Lit (s : jsstring) (r : regex) : regex :=
  match s with
  | [] => r
  | c :: s' => Seq (Chr c) (Lit s' r)
  end.

(** The matcher is a backtracking matcher in continuation-passing style, as
    in the ECMAScript specification: a matcher receives the position (the
    code unit before it, if any, the input that remains, and the number of
    code units matched so far) and a continuation, and answers with the
    length of the whole match and the input left after it, or with failure. *)
Definition cont := option char -> jsstring -> nat -> option (nat * jsstring).

Definition test_opt (p : char -> bool) (c : option char) : bool :=
  match c with
  | Some x => p x
  | None => false
  end.

(** Greedy repetition of a character class: one more character first, the
    continuation at the current position when that fails. *)
Fixpoint rep (p : char -> bool) (lo : nat) (hi : option nat)
    (prev : option char) (rest : jsstring) (n : nat) (k : cont) {struct rest}
    : option (nat * jsstring) :=
  let stop := match lo with O => k prev rest n | S _ => None end in
  match hi with
  | Some O => stop
  | _ =>
      match rest with
      | c :: rest' =>
          if p c then
            match rep p (Nat.pred lo) (option_map Nat.pred hi) (Some c) rest'
                    (S n) k with
            | Some r => Some r
            | None => stop
            end
          else stop
      | [] => stop
      end
  end.

Fixpoint exec (r : regex) (prev : option char) (rest : jsstring) (n : nat)
    (k : cont) {struct r} : option (nat * jsstring) :=
  match r with
  | Chr c =>
      match rest with
      | c' :: rest' => if (c' =? c)%N then k (Some c') rest' (S n) else None
      | [] => None
      end
  | Seq r1 r2 =>
      exec r1 prev rest n (fun prev' rest' n' => exec r2 prev' rest' n' k)
  | Alt r1 r2 =>
      match exec r1 prev rest n k with
      | Some x => Some x
      | None => exec r2 prev rest n k
      end
  | Opt r1 =>
      match exec r1 prev rest n k with
      | Some x => Some x
      | None => k prev rest n
      end
  | Rep p lo hi => rep p lo hi prev rest n k
  | WordBoundary =>
      if xorb (test_opt is_word prev) (test_opt is_word (hd_error rest))
      then k prev rest n else None
  | NotPrecededBy p => if test_opt p prev then None else k prev rest n
  | NotFollowedBy p =>
      if test_opt p (hd_error rest) then None else k prev rest n
  end.

(** One attempt at one position: the length of the match and the input left
    after it. *)
Definition match_at (r : regex) (prev : option char) (rest : jsstring)
    : option (nat * jsstring) :=
  exec r prev rest 0 (fun _ rest' n => Some (n, rest')).

(** The repeated [RegExp.prototype.exec] of a global regular expression,
    from a position on: the first position at or after the current one
    where the expression matches gives the next match, and the search
    resumes where that match ended (one code unit further after an empty
    match).  [skip] counts the code units of the current match that are
    still to be passed over. *)
Inductive piece : Type :=
| Copied (c : char)          (* a code unit outside every match *)
| Matched (m : jsstring).    (* a match *)

Fixpoint exec_loop (r : regex) (prev : option char) (rest : jsstring)
    (skip : nat) {struct rest} : list piece :=
  match skip with
  | S n =>
      match rest with
      | [] => []
      | c :: rest' => exec_loop r (Some c) rest' n
      end
  | O =>
      match match_at r prev rest with
      | Some (len, _) =>
          Matched (firstn len rest) ::
          match rest with
          | [] => []
          | c :: rest' =>
              match len with
              | O => Copied c :: exec_loop r (Some c) rest' 0
              | S n => exec_loop r (Some c) rest' n
              end
          end
      | None =>
          match rest with
          | [] => []
          | c :: rest' => Copied c :: exec_loop r (Some c) rest' 0
          end
      end
  end.

(** A regular expression object: its pattern and the mutable [lastIndex]. *)
Record RegExp : Type := { source : regex; lastIndex : nat }.

(** [new RegExp(pattern, "g")]: a fresh object, [lastIndex] 0. *)
Definition new_RegExp (pattern : RegExp) : RegExp :=
  {| source := source pattern; lastIndex := 0 |}.

(** [Array.from(s.matchAll(re)).map((m) => m[0])]: [matchAll] works on a
    clone of [re] that starts at [re.lastIndex]; [re] itself is not
    written. *)
Definition matchAll (s : jsstring) (re : RegExp) : list jsstring :=
  if length s <? lastIndex re then []
  else
    flat_map (fun p => match p with Matched m => [m] | Copied _ => [] end)
      (exec_loop (source re)
         (hd_error (rev (firstn (lastIndex re) s)))
         (skipn (lastIndex re) s) 0).

(** [s.replace(re, f)] for a global [re] and a replacer function: the
    search starts at 0 whatever [re.lastIndex] was, and what the replacer
    returns is inserted as it is. *)
Definition replace (s : jsstring) (re : regex) (f : jsstring -> jsstring)
    : jsstring :=
  flat_map (fun p => match p with Matched m => f m | Copied c => [c] end)
    (exec_loop re None s 0).

(** [s.split(sep)], by cases as in the language specification. *)
Fixpoint split_go (sep : jsstring) (cur : jsstring) (rest : jsstring)
    (skip : nat) {struct rest} : list jsstring :=
  match rest with
  | [] => [rev cur]
  | c :: rest' =>
      match skip with
      | S n => split_go sep cur rest' n
      | O =>
          if starts_with sep rest
          then rev cur :: split_go sep [] rest' (length sep - 1)
          else split_go sep (c :: cur) rest' 0
      end
  end.

Definition split (s sep : jsstring) : list jsstring :=
  match sep with
  | [] => map (fun c => [c]) s
  | _ :: _ => split_go sep [] s 0
  end.

(** [parts.join(glue)] *)
Fixpoint join (parts : list jsstring) (glue : jsstring) : jsstring :=
  match parts with
  | [] => []
  | [p] => p
  | p :: parts' => p ++ glue ++ join parts' glue
  end.

(** [s.padStart(n, "0")]: zeros in front up to length [n], nothing when [s]
    is that long already. *)
Definition padStart (s : jsstring) (n : nat) (fill : char) : jsstring :=
  repeat fill (n - length s) ++ s.

(** [Number.MAX_SAFE_INTEGER], [2^53 - 1]: up to it every integer is a
    JavaScript number, exactly. *)
Definition MAX_SAFE_INTEGER : N := 9007199254740991.

(** [n.toString()] for a non-negative integer up to [MAX_SAFE_INTEGER]: its
    decimal digits.  (From [1e21] on a number is written with an exponent;
    the counters of [redactText] start at 1 and grow by 1.) *)
Fixpoint digits_of_uint (d : Decimal.uint) : jsstring :=
  match d with
  | Decimal.Nil => []
  | Decimal.D0 d' => 48%N :: digits_of_uint d'
  | Decimal.D1 d' => 49%N :: digits_of_uint d'
  | Decimal.D2 d' => 50%N :: digits_of_uint d'
  | Decimal.D3 d' => 51%N :: digits_of_uint d'
  | Decimal.D4 d' => 52%N :: digits_of_uint d'
  | Decimal.D5 d' => 53%N :: digits_of_uint d'
  | Decimal.D6 d' => 54%N :: digits_of_uint d'
  | Decimal.D7 d' => 55%N :: digits_of_uint d'
  | Decimal.D8 d' => 56%N :: digits_of_uint d'
  | Decimal.D9 d' => 57%N :: digits_of_uint d'
  end.

Definition toString (n : N) : jsstring := digits_of_uint (N.to_uint n).

(* ================================================================== *)
(** ** The pattern catalog *)

(** The keys of [PII_PATTERNS], in the order of the object literal, which
    is the order of [Object.keys]. *)
Inductive label : Type := SSN | EMAIL | PHONE_NUMBER.

Definition label_name (l : label) : jsstring :=
  match l with
  | SSN => str "SSN"
  | EMAIL => str "EMAIL"
  | PHONE_NUMBER => str "PHONE_NUMBER"
  end.

Definition labels : list label := [SSN; EMAIL; PHONE_NUMBER].

Definition exactly (p : char -> bool) (n : nat) : regex := Rep p n (Some n).
Definition at_least (p : char -> bool) (n : nat) : regex := Rep p n None.
Definition c_of (a : ascii) : char := N_of_ascii a.

Fixpoint seq_of (rs : list regex) : regex :=
  match rs with
  | [] => Rep (fun _ => false) 0 (Some 0)
  | [r] => r
  | r :: rs' => Seq r (seq_of rs')
  end.

(** [/\b\d{3}-\d{2}-\d{4}\b/g] *)
Definition SSN_RE : regex :=
  seq_of [WordBoundary; exactly is_digit 3; Chr (c_of "-"); exactly is_digit 2;
          Chr (c_of "-"); exactly is_digit 4; WordBoundary].

(** [/\b[A-Za-z0-9._%+-]+@[A-Za-z0-9.-]+\.[A-Za-z]{2,}\b/g] *)
Definition EMAIL_RE : regex :=
  seq_of [WordBoundary; at_least is_email_local 1; Chr (c_of "@");
          at_least is_email_domain 1; Chr (c_of "."); at_least is_alpha 2;
          WordBoundary].

(** [/(?<!\w)(?:\+\d{1,3}[ .-]?)?(?:\(\d{3}\)|\d{3})[ .-]?\d{3}[ .-]?\d{4}(?!\w)/g] *)
Definition PHONE_NUMBER_RE : regex :=
  seq_of [NotPrecededBy is_word;
          Opt (seq_of [Chr (c_of "+"); Rep is_digit 1 (Some 3);
                       Rep is_phone_sep 0 (Some 1)]);
          Alt (seq_of [Chr (c_of "("); exactly is_digit 3; Chr (c_of ")")])
              (exactly is_digit 3);
          Rep is_phone_sep 0 (Some 1); exactly is_digit 3;
          Rep is_phone_sep 0 (Some 1); exactly is_digit 4;
          NotFollowedBy is_word].

Definition pattern_of (l : label) : regex :=
  match l with
  | SSN => SSN_RE
  | EMAIL => EMAIL_RE
  | PHONE_NUMBER => PHONE_NUMBER_RE
  end.

(** The module-level regular expression objects are the only state of the
    program that outlives a call: the patterns are constants, the
    [lastIndex] of each object is mutable. *)
Record Globals : Type := {
  SSN_lastIndex : nat;
  EMAIL_lastIndex : nat;
  PHONE_NUMBER_lastIndex : nat;
  PLACEHOLDER_lastIndex : nat
}.

Definition fresh_globals : Globals :=
  {| SSN_lastIndex := 0; EMAIL_lastIndex := 0; PHONE_NUMBER_lastIndex := 0;
     PLACEHOLDER_lastIndex := 0 |}.

(** [PII_PATTERNS[label]] *)
Definition PII_PATTERNS (g : Globals) (l : label) : RegExp :=
  {| source := pattern_of l;
     lastIndex := match l with
                  | SSN => SSN_lastIndex g
                  | EMAIL => EMAIL_lastIndex g
                  | PHONE_NUMBER => PHONE_NUMBER_lastIndex g
                  end |}.

(* ================================================================== *)
(** ** The mapping *)

(** [Record<string, string>]: an object with string keys, none of them an
    array index, so [Object.values] lists the values in the order in which
    the keys were first written. *)
Definition Mapping := list (jsstring * jsstring).

Definition keys (m : Mapping) : list jsstring := map fst m.
Definition values (m : Mapping) : list jsstring := map snd m.

(** [mapping[k]] *)
Fixpoint lookup (m : Mapping) (k : jsstring) : option jsstring :=
  match m with
  | [] => None
  | (k', v) :: m' => if eqb_str k' k then Some v else lookup m' k
  end.

(** [mapping[k] = v] *)
Fixpoint set (m : Mapping) (k v : jsstring) : Mapping :=
  match m with
  | [] => [(k, v)]
  | (k', v') :: m' =>
      if eqb_str k' k then (k', v) :: m' else (k', v') :: set m' k v
  end.

(** [xs.includes(x)] *)
Definition includes (xs : list jsstring) (x : jsstring) : bool :=
  existsb (eqb_str x) xs.

(* ================================================================== *)
(** ** Redaction *)

(** [function pad4(n) { return n.toString().padStart(4, "0"); }] *)
Definition pad4 (n : N) : jsstring := padStart (toString n) 4 48%N.

(** The counters, one per label; a counter is a JavaScript number that
    starts at 1 and is incremented by 1, an exact integer. *)
Definition Counters := label -> N.

Definition initial_counters : Counters := fun _ => 1%N.

Definition label_eqb (a b : label) : bool :=
  match a, b with
  | SSN, SSN | EMAIL, EMAIL | PHONE_NUMBER, PHONE_NUMBER => true
  | _, _ => false
  end.

Definition bump (c : Counters) (l : label) : Counters :=
  fun l' => if label_eqb l l' then (c l' + 1)%N else c l'.

(** The local variables of [redactText]. *)
Record Locals : Type := {
  modified : jsstring;
  mapping : Mapping;
  counters : Counters
}.

(** [`${label}_${pad4(counters[label])}`] *)
Definition placeholder_of (l : label) (n : N) : jsstring :=
  label_name l ++ str "_" ++ pad4 n.

(** The body of [for (const match of matches)]. *)
Definition redactMatch (l : label) (st : Locals) (mtch : jsstring) : Locals :=
  if includes (values (mapping st)) mtch then st
  else
    let placeholder := placeholder_of l (counters st l) in
    {| modified := join (split (modified st) mtch) placeholder;
       mapping := set (mapping st) placeholder mtch;
       counters := bump (counters st) l |}.

(** The body of [for (const label of Object.keys(PII_PATTERNS))], given the
    object found at [PII_PATTERNS[label]]. *)
Definition redactLabel (pattern : label -> RegExp) (st : Locals) (l : label)
    : Locals :=
  let re := new_RegExp (pattern l) in
  let matches := matchAll (modified st) re in
  fold_left (redactMatch l) matches st.

Record Redaction : Type := { redactedText : jsstring; mapping_of : Mapping }.

(** [redactText] as a state transformer over the module-level objects. *)
Definition redactText_st (text : jsstring) (g : Globals) : Redaction * Globals :=
  let st0 := {| modified := text; mapping := []; counters := initial_counters |} in
  let st := fold_left (redactLabel (PII_PATTERNS g)) labels st0 in
  ({| redactedText := modified st; mapping_of := mapping st |}, g).

(** [redactText] in a freshly loaded module. *)
Definition redactText (text : jsstring) : Redaction :=
  fst (redactText_st text fresh_globals).

(* ================================================================== *)
(** ** Restoration *)

(** [/\b(?:SSN_\d{4}|EMAIL_\d{4}|PHONE_NUMBER_\d{4})\b/g] *)
Definition PLACEHOLDER_RE : regex :=
  Seq WordBoundary
    (Seq (Alt (Lit (str "SSN_") (exactly is_digit 4))
            (Alt (Lit (str "EMAIL_") (exactly is_digit 4))
                 (Lit (str "PHONE_NUMBER_") (exactly is_digit 4))))
         WordBoundary).

Definition MAX_PH_LEN : nat := 17.

(** [(m) => mapping[m] ?? m] *)
Definition restore (mapping : Mapping) (m : jsstring) : jsstring :=
  match lookup mapping m with
  | Some v => v
  | None => m
  end.

(** [text.replace(PLACEHOLDER_RE, (m) => mapping[m] ?? m)] *)
Definition unredactOnce (text : jsstring) (mapping : Mapping) : jsstring :=
  replace text PLACEHOLDER_RE (restore mapping).

(** The closure returned by [makeStreamUnredactor(mapping)]: it captures
    [mapping] and the variable [buf]. *)
Record Session : Type := { session_mapping : Mapping; buf : jsstring }.

Definition makeStreamUnredactor (mapping : Mapping) : Session :=
  {| session_mapping := mapping; buf := [] |}.

Definition TAIL : nat := MAX_PH_LEN - 1.

(** One call [(incoming) => ...] of the closure: what it returns and the
    session afterwards. *)
Definition feed (s : Session) (incoming : jsstring) : jsstring * Session :=
  let buf1 := buf s ++ incoming in
  let buf2 := replace buf1 PLACEHOLDER_RE (restore (session_mapping s)) in
  if TAIL <? length buf2 then
    let emitLen := length buf2 - TAIL in
    (firstn emitLen buf2,
     {| session_mapping := session_mapping s; buf := skipn emitLen buf2 |})
  else ([], {| session_mapping := session_mapping s; buf := buf2 |}).

(** The calls of one stream, in order: the outputs and the final session. *)
Fixpoint feed_all (s : Session) (fragments : list jsstring)
    : list jsstring * Session :=
  match fragments with
  | [] => ([], s)
  | f :: fragments' =>
      let (out, s') := feed s f in
      let (outs, s'') := feed_all s' fragments' in
      (out :: outs, s'')
  end.

(* ================================================================== *)
(** ** Vocabulary of the properties *)

(** The input of the concrete scenario and the mapping it gives. *)
Definition scenario : jsstring :=
  str "Contact 555-123-4567 or a@b.com, SSN 123-45-6789".

Definition scenario_mapping : Mapping :=
  [(str "SSN_0001", str "123-45-6789");
   (str "EMAIL_0001", str "a@b.com");
   (str "PHONE_NUMBER_0001", str "555-123-4567")].

(** What is left of a text when every occurrence of the given tokens is cut
    out of it. *)
Definition without (tokens : list jsstring) (text : jsstring) : jsstring :=
  fold_left (fun t k => join (split t k) []) tokens text.

(** What holds of the mapping after every iteration of both loops. *)
Definition mapping_ok (m : Mapping) : Prop :=
  NoDup (values m) /\ NoDup (keys m).

(** The code unit before the position reached after reading [m]. *)
Definition last_of (prev : option char) (m : jsstring) : option char :=
  fold_left (fun _ c => Some c) m prev.

(** The first [n] code units when all of them are in the class [p]. *)
Fixpoint take_class (p : char -> bool) (n : nat) (s : jsstring)
    : option (jsstring * jsstring) :=
  match n with
  | O => Some ([], s)
  | S n' =>
      match s with
      | c :: s' =>
          if p c then
            match take_class p n' s' with
            | Some (ds, after) => Some (c :: ds, after)
            | None => None
            end
          else None
      | [] => None
      end
  end.

(** The placeholder grammar, [LABEL_dddd]: the text of a placeholder with
    the given label and digits. *)
Definition placeholder_text (l : label) (ds : jsstring) : jsstring :=
  label_name l ++ str "_" ++ ds.

Definition four_digits (ds : jsstring) : bool :=
  (length ds =? 4) && forallb is_digit ds.

(** [s] begins with a placeholder of label [l]: the placeholder and what
    follows it. *)
Definition token_at (l : label) (s : jsstring) : option (jsstring * jsstring) :=
  let pre := label_name l ++ str "_" in
  if starts_with pre s then
    match take_class is_digit 4 (skipn (length pre) s) with
    | Some (ds, after) => Some (pre ++ ds, after)
    | None => None
    end
  else None.

(** [tok] is a string of the placeholder grammar. *)
Definition is_placeholder (tok : jsstring) : bool :=
  existsb (fun l =>
    let pre := label_name l ++ str "_" in
    starts_with pre tok && four_digits (skipn (length pre) tok)) labels.

(** A string of the placeholder grammar begins at the front of [s]. *)
Definition placeholder_at (s : jsstring) : bool :=
  existsb (fun l => match token_at l s with Some _ => true | None => false end)
    labels.

(** [s] has a substring of the placeholder grammar. *)
Fixpoint contains_placeholder (s : jsstring) : bool :=
  placeholder_at s ||
  match s with
  | [] => false
  | _ :: s' => contains_placeholder s'
  end.

(** The text a list of pieces was cut from. *)
Definition text_of (ps : list piece) : jsstring :=
  flat_map (fun p => match p with Matched m => m | Copied c => [c] end) ps.

(** A text on whose two sides a word cannot continue: the text ends, or
    begins, with a character outside [\w], or is empty. *)
Definition ends_clean (a : jsstring) : bool :=
  negb (test_opt is_word (last_of None a)).

Definition starts_clean (b : jsstring) : bool :=
  negb (test_opt is_word (hd_error b)).

(** [w0 t1 w1 ... tn wn]: pieces of text with a token between each two. *)
Fixpoint interleave (ws : list jsstring) (ts : list jsstring) : jsstring :=
  match ws, ts with
  | w :: ws', t :: ts' => w ++ t ++ interleave ws' ts'
  | w :: _, [] => w
  | [], _ => []
  end.

(** What one attempt of [PLACEHOLDER_RE] at one position computes for one
    of its alternatives. *)
Definition try_label (l : label) (prev : option char) (s : jsstring)
    : option (nat * jsstring) :=
  match token_at l s with
  | Some (tok, after) =>
      if xorb (test_opt is_word (last_of prev tok))
              (test_opt is_word (hd_error after))
      then Some (length tok, after) else None
  | None => None
  end.

Definition is_nil (s : jsstring) : bool :=
  match s with
  | [] => true
  | _ :: _ => false
  end.

(** The tokens [ts] stand as whole words between the pieces [ws]: a piece
    before a token ends outside [\w], a piece after a token begins outside
    [\w], and a piece between two tokens is not empty. *)
Fixpoint delimited (ws ts : list jsstring) : bool :=
  match ws, ts with
  | [_], [] => true
  | w :: ((w' :: _) as ws'), t :: ts' =>
      ends_clean w && starts_clean w' &&
      match ts' with
      | [] => true
      | _ :: _ => negb (is_nil w')
      end &&
      delimited ws' ts'
  | _, _ => false
  end.

(** No key of the mapping occurs in the text. *)
Definition free_of_keys (m : Mapping) (text : jsstring) : bool :=
  forallb (fun k => negb (occurs k text)) (keys m).

(** The last decimal digit of [n], as a character, and the last four. *)
Definition digit (n : N) : char := (48 + n mod 10)%N.

Definition four (n : N) : jsstring :=
  [digit (n / 10 / 10 / 10); digit (n / 10 / 10); digit (n / 10); digit n].

(** Ten thousand different numbers of the form of a social security
    number, [123-45-0000] to [123-45-9999], each followed by a space. *)
Definition ssn_number (i : nat) : jsstring :=
  str "123-45-" ++ four (N.of_nat i).

Definition how_many : nat := N.to_nat 10000.

Definition many_ssn_numbers : jsstring :=
  flat_map (fun i => ssn_number i ++ str " ") (seq 0 how_many).

(** The number a string of decimal digits writes. *)
Definition number_of (s : jsstring) : N :=
  fold_left (fun acc c => (acc * 10 + (c - 48))%N) s 0%N.

(* ================================================================== *)
(** ** The model call and one request *)

(** The text streamed when no API key is set. *)
Definition mock : jsstring :=
  str "OPENAI_API_KEY not set. Please update field. Placeholders will be handled, but final output and stream will not reflect accurate responses.".

(** [s.slice(i, j)] for [0 <= i <= j]. *)
Definition slice (s : jsstring) (i j : nat) : jsstring :=
  firstn (j - i) (skipn i s).

(** What the generation service does with a prompt: the parts it streams,
    each with the text of its [delta.content] (the empty string when there
    is none), and whether the stream ends or an exception is thrown after
    them ([create] throwing is [Throws []]). *)
Inductive Reply : Type :=
| Completes (parts : list jsstring)
| Throws (parts : list jsstring).

Section CallLLMStream.

(** The callback [onUserChunk] acts on a state of the caller. *)
Variable St : Type.
Variable onUserChunk : jsstring -> St -> St.

(** [for (let i = 0; i < mock.length; i += 12) { ... }]; [fuel] bounds
    the number of iterations. *)
Fixpoint mock_loop (text : jsstring) (fuel i : nat) (raw : jsstring) (st : St)
    : jsstring * St :=
  match fuel with
  | O => (raw, st)
  | S fuel' =>
      if i <? length text then
        let chunk := slice text i (i + 12) in
        mock_loop text fuel' (i + 12) (raw ++ chunk) (onUserChunk chunk st)
      else (raw, st)
  end.

(** [for await (const part of stream) { ... if (delta) { ... } }] *)
Definition live_loop (parts : list jsstring) (raw : jsstring) (st : St)
    : jsstring * St :=
  fold_left
    (fun acc delta =>
       if is_nil delta then acc
       else (fst acc ++ delta, onUserChunk delta (snd acc)))
    parts (raw, st).

(** [callLLMStream(prompt, onUserChunk)]: the raw text returned and the
    state the callbacks leave.  [has_key] is the truth value of
    [process.env.OPENAI_API_KEY]. *)
Definition callLLMStream (has_key : bool) (service : jsstring -> Reply)
    (prompt : jsstring) (st : St) : jsstring * St :=
  if has_key then
    match service prompt with
    | Completes parts =>
        let (raw, st') := live_loop parts [] st in
        (raw, onUserChunk [] st')
    | Throws parts => live_loop parts [] st
    end
  else
    let (raw, st') := mock_loop mock (length mock) 0 [] st in
    (raw, onUserChunk [] st').

End CallLLMStream.

Arguments mock_loop {St}.
Arguments live_loop {St}.
Arguments callLLMStream {St}.

(** What [processRequest] shows: the strings written to the standard output
    by the live stream, in order, and the three texts printed at the end. *)
Record Shown : Type := {
  written : list jsstring;
  redactedPrompt : jsstring;
  llmOutput : jsstring;
  finalOutput : jsstring
}.

(** [(chunk) => { const safe = toUser(chunk); if (safe) process.stdout.write(safe); }]
    on the session [toUser] and the strings written so far. *)
Definition onUserChunk (chunk : jsstring) (st : Session * list jsstring)
    : Session * list jsstring :=
  let (safe, s') := feed (fst st) chunk in
  (s', if is_nil safe then snd st else snd st ++ [safe]).

Definition processRequest (has_key : bool) (service : jsstring -> Reply)
    (system_prompt prompt : jsstring) : Shown :=
  let combined := system_prompt ++ str " " ++ prompt in
  let r := redactText combined in
  let toUser := makeStreamUnredactor (mapping_of r) in
  let (rawModelOutput, st) :=
    callLLMStream onUserChunk has_key service (redactedText r) (toUser, []) in
  {| written := snd st;
     redactedPrompt := redactedText r;
     llmOutput := rawModelOutput;
     finalOutput := unredactOnce rawModelOutput (mapping_of r) |}.

(* ================================================================== *)
(** ** Further vocabulary *)

(** The least number of code units a match of the expression has. *)
Fixpoint min_len (r : regex) : nat :=
  match r with
  | Chr _ => 1
  | Seq r1 r2 => min_len r1 + min_len r2
  | Alt r1 r2 => Nat.min (min_len r1) (min_len r2)
  | Opt _ => 0
  | Rep _ lo _ => lo
  | WordBoundary | NotPrecededBy _ | NotFollowedBy _ => 0
  end.

(** [v] is a match of the pattern of label [l] at some position of some
    text. *)
Definition matched_by (l : label) (v : jsstring) : Prop :=
  exists prev after,
    match_at (pattern_of l) prev (v ++ after) = Some (length v, after).

(** The number of digits in a text. *)
Definition count_digits (s : jsstring) : nat := length (filter is_digit s).

(** A decimal digit in front of a number in decimal notation. *)
Definition uint_digit (k : N) (d : Decimal.uint) : Decimal.uint :=
  match k with
  | 0 => Decimal.D0 d
  | 1 => Decimal.D1 d
  | 2 => Decimal.D2 d
  | 3 => Decimal.D3 d
  | 4 => Decimal.D4 d
  | 5 => Decimal.D5 d
  | 6 => Decimal.D6 d
  | 7 => Decimal.D7 d
  | 8 => Decimal.D8 d
  | _ => Decimal.D9 d
  end%N.

(** The last four decimal digits of [n], the last one first. *)
Definition uint_four (n : N) : Decimal.uint :=
  uint_digit (n mod 10)
    (uint_digit (n / 10 mod 10)
       (uint_digit (n / 10 / 10 mod 10)
          (uint_digit (n / 10 / 10 / 10 mod 10) Decimal.Nil))).

(** The sum of the three counters. *)
Definition minted (c : Counters) : N :=
  (c SSN + c EMAIL + c PHONE_NUMBER)%N.

(** What holds of an entry of the mapping while [redactText] runs: its key
    is the placeholder of a label and of a counter value already used for
    that label, and its value is a match of the pattern of that label. *)
Definition entry_ok (c : Counters) (kv : jsstring * jsstring) : Prop :=
  exists l n,
    fst kv = placeholder_of l n /\ (1 <= n < c l)%N /\ matched_by l (snd kv).

(** What holds of the locals of [redactText] after every iteration. *)
Definition locals_ok (st : Locals) : Prop :=
  Forall (entry_ok (counters st)) (mapping st) /\
  minted (counters st) = (3 + N.of_nat (length (mapping st)))%N /\
  (forall l, (1 <= counters st l)%N).

(** The parts of a reply, the ones with content ([if (delta)]), and the
    calls of [onUserChunk] a reply leads to: one per part with content, and
    a last one with the empty string when the stream ends without an
    exception. *)
Definition parts_of (r : Reply) : list jsstring :=
  match r with
  | Completes parts => parts
  | Throws parts => parts
  end.

Definition deltas (parts : list jsstring) : list jsstring :=
  filter (fun d => negb (is_nil d)) parts.

Definition calls_of (r : Reply) : list jsstring :=
  match r with
  | Completes parts => deltas parts ++ [[]]
  | Throws parts => deltas parts
  end.

(** The locals of [redactText] before its loops. *)
Definition initial_locals (text : jsstring) : Locals :=
  {| modified := text; mapping := []; counters := initial_counters |}.

(** One iteration of the inner loop, for a match and the label of the
    pass that found it. *)
Definition redactSeen (st : Locals) (lv : label * jsstring) : Locals :=
  redactMatch (fst lv) st (snd lv).

(** The matches one call of [redactText] works through, in the order in
    which the inner loop takes them, each with the label of its pass: the
    matches of a pass are those [matchAll] finds in the text as the passes
    before have left it. *)
Fixpoint seen_from (ls : list label) (st : Locals) : list (label * jsstring) :=
  match ls with
  | [] => []
  | l :: ls' =>
      map (pair l)
        (matchAll (modified st) (new_RegExp (PII_PATTERNS fresh_globals l))) ++
      seen_from ls' (redactLabel (PII_PATTERNS fresh_globals) st l)
  end.

Definition seen (text : jsstring) : list (label * jsstring) :=
  seen_from labels (initial_locals text).

(** The number of entries of a mapping whose key begins with [LABEL_]. *)
Definition minted_under (l : label) (m : Mapping) : nat :=
  length (filter (fun kv => starts_with (label_name l ++ str "_") (fst kv)) m).

(** The counter of every label is one more than the number of entries minted
    under it. *)
Definition counted (st : Locals) : Prop :=
  forall l, counters st l = (1 + N.of_nat (minted_under l (mapping st)))%N.

(** [s.split(k).join(v)]: every occurrence of [k] in [s], taken from the
    left, replaced by [v]. *)
Definition replaceAll (s k v : jsstring) : jsstring := join (split s k) v.

(** Restoration of the literal kind: the entries of the mapping undone one
    after the other, the last one minted first. *)
Definition unredactLiteral (text : jsstring) (m : Mapping) : jsstring :=
  fold_right (fun kv s => replaceAll s (fst kv) (snd kv)) text m.

(** The shape of a string of the placeholder grammar: its digits are
    digits, whichever. *)
Definition shape (c : char) : char := if is_digit c then 48%N else c.

Definition template (l : label) : jsstring := placeholder_text l (str "0000").

(** Two strings agree where both have a character. *)
Fixpoint agree (a b : jsstring) : bool :=
  match a, b with
  | x :: a', y :: b' => (x =? y)%N && agree a' b'
  | _, _ => true
  end.

(** No occurrence of [k] in [a ++ b] begins in [a] and ends in [b]. *)
Definition no_straddle (k a b : jsstring) : Prop :=
  forall a1 a2,
    a = a1 ++ a2 -> a2 <> [] ->
    starts_with k (a2 ++ b) = true -> starts_with k a2 = true.

(** What holds of the locals of [redactText] on the text [text] while the
    mapping has fewer than 10000 entries: undoing the entries one after the
    other gives the text back, and a string of [G] that occurs in the
    working text is a key. *)
Definition restorable (text : jsstring) (G : jsstring -> Prop) (st : Locals)
    : Prop :=
  (N.of_nat (length (mapping st)) < 10000)%N ->
  unredactLiteral (modified st) (mapping st) = text /\
  (forall g, G g -> occurs g (modified st) = true -> In g (keys (mapping st))).

(** [v] in the place of [k], every other token as it is. *)
Definition swap (k v t : jsstring) : jsstring := if eqb_str t k then v else t.

(* ================================================================== *)
(** * Properties *)

(** ** Strings *)

Lemma eqb_str_eq (a b : jsstring) : eqb_str a b = true <-> a = b.
Proof.
  revert b; induction a as [|x a IH]; intros [|y b]; simpl;
    try (split; [discriminate | congruence]); try tauto.
  rewrite andb_true_iff, N.eqb_eq, IH. split.
  - intros [-> ->]; reflexivity.
  - intros E; injection E; auto.
Qed.

Lemma eqb_str_refl (a : jsstring) : eqb_str a a = true.
Proof. apply eqb_str_eq; reflexivity. Qed.

Lemma eqb_str_neq (a b : jsstring) : eqb_str a b = false <-> a <> b.
Proof.
  rewrite <- eqb_str_eq. destruct (eqb_str a b); split; congruence.
Qed.

Lemma starts_with_app (p s : jsstring) :
  starts_with p s = true <-> exists t, s = p ++ t.
Proof.
  revert s; induction p as [|x p IH]; intros s; simpl.
  - split; [intros _; exists s; reflexivity | reflexivity].
  - destruct s as [|y s].
    + split; [discriminate | intros [t E]; discriminate].
    + rewrite andb_true_iff, N.eqb_eq, IH. split.
      * intros [-> [t ->]]; exists t; reflexivity.
      * intros [t E]; injection E as -> ->; split; [reflexivity | exists t; reflexivity].
Qed.

Lemma includes_In (xs : list jsstring) (x : jsstring) :
  includes xs x = true <-> In x xs.
Proof.
  unfold includes. rewrite existsb_exists. split.
  - intros [y [Hy E]]. apply eqb_str_eq in E. subst; assumption.
  - intros H. exists x. split; [assumption | apply eqb_str_refl].
Qed.

(** ** The mapping *)

Lemma In_values_set (m : Mapping) (k v x : jsstring) :
  In x (values (set m k v)) -> x = v \/ In x (values m).
Proof.
  induction m as [|[k' v'] m IH]; simpl.
  - intros [E | []]; left; congruence.
  - destruct (eqb_str k' k); simpl.
    + intros [E | H]; [left; congruence | right; right; assumption].
    + intros [E | H]; [right; left; assumption |].
      destruct (IH H); [left | right; right]; assumption.
Qed.

Lemma NoDup_values_set (m : Mapping) (k v : jsstring) :
  NoDup (values m) -> ~ In v (values m) -> NoDup (values (set m k v)).
Proof.
  induction m as [|[k' v'] m IH]; simpl; intros ND NI.
  - constructor; [intros [] | constructor].
  - inversion ND as [|? ? Hn ND']; subst.
    destruct (eqb_str k' k); simpl.
    + constructor; [tauto | assumption].
    + constructor.
      * intros H. apply In_values_set in H. destruct H as [-> | H]; tauto.
      * apply IH; tauto.
Qed.

Lemma In_keys_set (m : Mapping) (k v x : jsstring) :
  In x (keys (set m k v)) -> x = k \/ In x (keys m).
Proof.
  induction m as [|[k' v'] m IH]; simpl.
  - intros [E | []]; left; congruence.
  - destruct (eqb_str k' k); simpl.
    + intros [E | H]; [right; left | right; right]; assumption.
    + intros [E | H]; [right; left; assumption |].
      destruct (IH H); [left | right; right]; assumption.
Qed.

Lemma NoDup_keys_set (m : Mapping) (k v : jsstring) :
  NoDup (keys m) -> NoDup (keys (set m k v)).
Proof.
  induction m as [|[k' v'] m IH]; simpl; intros ND.
  - constructor; [intros [] | constructor].
  - inversion ND as [|? ? Hn ND']; subst.
    destruct (eqb_str k' k) eqn:E; simpl.
    + constructor; assumption.
    + constructor; [| apply IH; assumption].
      intros H. apply In_keys_set in H. destruct H as [-> | H]; [| tauto].
      rewrite eqb_str_refl in E; discriminate.
Qed.

Lemma keys_set_grow (m : Mapping) (k v x : jsstring) :
  In x (keys m) -> In x (keys (set m k v)).
Proof.
  induction m as [|[k' v'] m IH]; simpl; [tauto |].
  destruct (eqb_str k' k); simpl; tauto.
Qed.

Lemma In_keys_set_new (m : Mapping) (k v : jsstring) : In k (keys (set m k v)).
Proof.
  induction m as [|[k' v'] m IH]; simpl; [left; reflexivity |].
  destruct (eqb_str k' k) eqn:E; simpl.
  - left. apply eqb_str_eq; assumption.
  - right; assumption.
Qed.

Lemma lookup_In (m : Mapping) (k v : jsstring) :
  lookup m k = Some v -> In (k, v) m.
Proof.
  induction m as [|[k' v'] m IH]; simpl; [discriminate |].
  destruct (eqb_str k' k) eqn:E.
  - intros H; injection H as ->. apply eqb_str_eq in E; subst. left; reflexivity.
  - intros H; right; apply IH; assumption.
Qed.


(** ** The loops of [redactText] *)

Lemma redactMatch_ok (l : label) (st : Locals) (mtch : jsstring) :
  mapping_ok (mapping st) -> mapping_ok (mapping (redactMatch l st mtch)).
Proof.
  unfold redactMatch, mapping_ok. intros [Hv Hk].
  destruct (includes (values (mapping st)) mtch) eqn:E; simpl; [tauto |].
  split.
  - apply NoDup_values_set; [assumption |].
    intros H. apply includes_In in H. congruence.
  - apply NoDup_keys_set; assumption.
Qed.

Lemma fold_redactMatch_ok (l : label) (ms : list jsstring) (st : Locals) :
  mapping_ok (mapping st) ->
  mapping_ok (mapping (fold_left (redactMatch l) ms st)).
Proof.
  revert st; induction ms as [|m ms IH]; simpl; intros st H; [assumption |].
  apply IH, redactMatch_ok, H.
Qed.

Lemma redactLabel_ok (pat : label -> RegExp) (st : Locals) (l : label) :
  mapping_ok (mapping st) -> mapping_ok (mapping (redactLabel pat st l)).
Proof. unfold redactLabel. apply fold_redactMatch_ok. Qed.

Lemma fold_redactLabel_ok (pat : label -> RegExp) (ls : list label) (st : Locals) :
  mapping_ok (mapping st) ->
  mapping_ok (mapping (fold_left (redactLabel pat) ls st)).
Proof.
  revert st; induction ls as [|l ls IH]; simpl; intros st H; [assumption |].
  apply IH, redactLabel_ok, H.
Qed.

Lemma redactText_mapping_ok (text : jsstring) :
  mapping_ok (mapping_of (redactText text)).
Proof.
  unfold redactText, redactText_st. cbn [fst mapping_of].
  apply fold_redactLabel_ok. split; constructor.
Qed.

(** C8. [redactText] reads the module-level objects and writes none of them:
    whatever their state, the call returns the same redacted text and the same
    mapping and leaves that state as it was; so a second call on the same
    text, made after the first, returns what the first returned. *)
Theorem redactText_deterministic (text : jsstring) (g1 g2 : Globals) :
  fst (redactText_st text g1) = fst (redactText_st text g2) /\
  snd (redactText_st text g1) = g1 /\
  fst (redactText_st text (snd (redactText_st text g1))) =
    fst (redactText_st text g1) /\
  fst (redactText_st text g1) = redactText text.
Proof.
  unfold redactText, redactText_st; cbn [fst snd].
  repeat split; reflexivity.
Qed.

(** ** The concrete scenario *)

(** C9. On the scenario input [redactText] returns the three entries
    [PHONE_NUMBER_0001], [EMAIL_0001] and [SSN_0001] with the three matched
    values and nothing else, and a redacted text with no at-sign, with none of
    the matched values in it, and with no digit outside the three
    placeholders. *)
Theorem redactText_scenario :
  let r := redactText scenario in
  redactedText r = str "Contact PHONE_NUMBER_0001 or EMAIL_0001, SSN SSN_0001" /\
  length (mapping_of r) = 3 /\
  lookup (mapping_of r) (placeholder_of PHONE_NUMBER 1) = Some (str "555-123-4567") /\
  lookup (mapping_of r) (placeholder_of EMAIL 1) = Some (str "a@b.com") /\
  lookup (mapping_of r) (placeholder_of SSN 1) = Some (str "123-45-6789") /\
  mapping_of r = scenario_mapping /\
  existsb (N.eqb 64) (redactedText r) = false /\
  existsb (fun v => occurs v (redactedText r)) (values (mapping_of r)) = false /\
  existsb is_digit (without (keys (mapping_of r)) (redactedText r)) = false.
Proof. vm_compute. repeat split. Qed.

(** ** The streaming session *)

Lemma feed_mapping (s : Session) (incoming : jsstring) :
  session_mapping (snd (feed s incoming)) = session_mapping s.
Proof.
  unfold feed. destruct (TAIL <? _); reflexivity.
Qed.

Lemma feed_all_mapping (fragments : list jsstring) (s : Session) :
  session_mapping (snd (feed_all s fragments)) = session_mapping s.
Proof.
  revert s; induction fragments as [|f fs IH]; intros s; simpl; [reflexivity |].
  destruct (feed s f) as [out s'] eqn:E.
  specialize (IH s'). destruct (feed_all s' fs) as [outs s'']. simpl in *.
  rewrite IH. change s' with (snd (out, s')). rewrite <- E. apply feed_mapping.
Qed.

(** C10. After every call of a session, whatever was fed before and whatever
    comes in, at most 16 characters are retained; the call returns the
    processed buffer without its last 16 characters and retains those, and it
    returns nothing when the processed buffer has 16 characters or fewer. *)
Theorem feed_retains_tail (mapping : Mapping) (history : list jsstring)
    (incoming : jsstring) :
  let s := snd (feed_all (makeStreamUnredactor mapping) history) in
  let processed := replace (buf s ++ incoming) PLACEHOLDER_RE (restore mapping) in
  let out := fst (feed s incoming) in
  let s' := snd (feed s incoming) in
  TAIL = 16 /\
  length (buf s') <= TAIL /\
  out = firstn (length processed - TAIL) processed /\
  buf s' = skipn (length processed - TAIL) processed /\
  out ++ buf s' = processed /\
  (if length processed <=? TAIL then out = [] /\ buf s' = processed
   else length (buf s') = TAIL) /\
  length (buf s) <= TAIL.
Proof.
  assert (step : forall (s : Session) (inc : jsstring),
    let processed := replace (buf s ++ inc) PLACEHOLDER_RE (restore (session_mapping s)) in
    length (buf (snd (feed s inc))) <= 16 /\
    fst (feed s inc) = firstn (length processed - 16) processed /\
    buf (snd (feed s inc)) = skipn (length processed - 16) processed /\
    fst (feed s inc) ++ buf (snd (feed s inc)) = processed /\
    (if length processed <=? 16
     then fst (feed s inc) = [] /\ buf (snd (feed s inc)) = processed
     else length (buf (snd (feed s inc))) = 16)).
  { intros s inc processed. unfold feed. fold processed.
    change TAIL with 16.
    destruct (16 <? length processed) eqn:E; cbn [fst snd buf].
    - apply Nat.ltb_lt in E.
      assert (L : (length processed <=? 16) = false) by (apply Nat.leb_gt; lia).
      rewrite L, length_skipn, firstn_skipn. repeat split; lia.
    - apply Nat.ltb_ge in E.
      assert (L : (length processed <=? 16) = true) by (apply Nat.leb_le; assumption).
      rewrite L. replace (length processed - 16) with 0 by lia.
      repeat split; assumption. }
  intros s processed out s'. change TAIL with 16. split; [reflexivity |].
  pose proof (step s incoming) as H. cbv zeta in H.
  replace (session_mapping s) with mapping in H
    by (unfold s; rewrite feed_all_mapping; reflexivity).
  destruct H as (H1 & H2 & H3 & H4 & H5).
  repeat split; try assumption.
  subst s. clear - step. induction history as [|f fs IH] using rev_ind.
  - simpl. lia.
  - assert (G : forall fs s f, snd (feed_all s (fs ++ [f])) = snd (feed (snd (feed_all s fs)) f)).
    { clear. induction fs as [|x xs IHx]; intros s f; simpl.
      - destruct (feed s f); reflexivity.
      - destruct (feed s x) as [o s1]. specialize (IHx s1 f).
        destruct (feed_all s1 (xs ++ [f])), (feed_all s1 xs). simpl in *. assumption. }
    rewrite G. apply step.
Qed.

(** C1. A stream that ends with the empty fragment, as [callLLMStream] ends
    every stream, strands the retained tail: here nothing at all is shown,
    where one-shot restoration of the same text gives the whole text.  And
    the retained tail is searched again from its first character as if the
    text began there: in the second stream a placeholder glued to a letter,
    which one-shot restoration leaves alone, is restored once the letters
    before it have been emitted. *)
Theorem stream_flush_strands_tail :
  let fragments := [str "Hello "; str "EMAIL_0001"; str "!"] in
  let glued := [str "xxxxxxxxxxxxxxxxxSSN_0001 yyyyyyy";
                str "zzzzzzzzzzzzzzzzzzzzzzzzz"] in
  fst (feed_all (makeStreamUnredactor scenario_mapping) (fragments ++ [[]]))
    = [[]; []; []; []] /\
  buf (snd (feed_all (makeStreamUnredactor scenario_mapping) (fragments ++ [[]])))
    = str "Hello a@b.com!" /\
  unredactOnce (concat fragments) scenario_mapping = str "Hello a@b.com!" /\
  fst (feed_all (makeStreamUnredactor scenario_mapping) (glued ++ [[]]))
    = [str "xxxxxxxxxxxxxxxxx"; str "123-45-6789 yyyyyyyzzzzzzzzz"; []] /\
  unredactOnce (concat glued) scenario_mapping = concat glued.
Proof. vm_compute. repeat split. Qed.

(** C2. The placeholder [EMAIL_0001] split at each of its eleven offsets and
    followed by the empty fragment: every call returns the empty string, so
    the value ["a@b.com"] is never shown; it stays in the buffer. *)
Theorem stream_split_token_never_shown :
  let t := str "EMAIL_0001" in
  Forall (fun i =>
    let run := feed_all (makeStreamUnredactor scenario_mapping)
                 [firstn i t; skipn i t; []] in
    fst run = [[]; []; []] /\
    occurs (str "a@b.com") (concat (fst run)) = false /\
    buf (snd run) = str "a@b.com")
    (seq 0 (S (length t))).
Proof.
  intros t.
  change (seq 0 (S (length t))) with [0; 1; 2; 3; 4; 5; 6; 7; 8; 9; 10].
  repeat (apply Forall_cons; [vm_compute; repeat split |]).
  apply Forall_nil.
Qed.

(** ** The matcher *)

Lemma last_of_app (prev : option char) (a b : jsstring) :
  last_of prev (a ++ b) = last_of (last_of prev a) b.
Proof. apply fold_left_app. Qed.

(** A literal string matches when the input begins with it. *)
Lemma exec_Lit (s : jsstring) (r : regex) :
  forall prev rest n k,
    exec (Lit s r) prev rest n k =
    if starts_with s rest
    then exec r (last_of prev s) (skipn (length s) rest) (n + length s) k
    else None.
Proof.
  induction s as [|c s IH]; intros prev rest n k; simpl.
  - rewrite Nat.add_0_r. reflexivity.
  - destruct rest as [|c' rest]; [reflexivity |].
    rewrite N.eqb_sym. destruct (c =? c')%N eqn:E; simpl; [| reflexivity].
    apply N.eqb_eq in E; subst. rewrite IH, Nat.add_succ_r. reflexivity.
Qed.

(** [[p]{n}] takes exactly [n] code units of the class, with nothing to
    backtrack into. *)
Lemma rep_exactly (p : char -> bool) (w : nat) :
  forall prev rest n k,
    rep p w (Some w) prev rest n k =
    match take_class p w rest with
    | Some (ds, after) => k (last_of prev ds) after (n + w)
    | None => None
    end.
Proof.
  induction w as [|w IH]; intros prev rest n k; destruct rest as [|c rest];
    simpl; rewrite ?Nat.add_0_r; try reflexivity.
  destruct (p c); [| reflexivity].
  rewrite IH. destruct (take_class p w rest) as [[ds after]|]; [| reflexivity].
  change (last_of prev (c :: ds)) with (last_of (Some c) ds).
  rewrite Nat.add_succ_r. change (S n + w) with (S (n + w)).
  destruct (k (last_of (Some c) ds) after (S (n + w))); reflexivity.
Qed.

Lemma take_class_sound (p : char -> bool) (n : nat) :
  forall s ds after,
    take_class p n s = Some (ds, after) ->
    s = ds ++ after /\ length ds = n /\ forallb p ds = true.
Proof.
  induction n as [|n IH]; intros s ds after; simpl.
  - intros E; injection E as <- <-. auto.
  - destruct s as [|c s]; [discriminate |].
    destruct (p c) eqn:Pc; [| discriminate].
    destruct (take_class p n s) as [[ds' after']|] eqn:T; [| discriminate].
    intros E; injection E as <- <-.
    apply IH in T. destruct T as (-> & L & F).
    simpl. rewrite Pc, F, L. auto.
Qed.

Lemma take_class_complete (p : char -> bool) (ds after : jsstring) :
  forallb p ds = true -> take_class p (length ds) (ds ++ after) = Some (ds, after).
Proof.
  induction ds as [|d ds IH]; simpl; [reflexivity |].
  intros F. apply andb_true_iff in F. destruct F as [Pd F].
  rewrite Pd, IH by assumption. reflexivity.
Qed.

(** Whatever a matcher hands to its continuation is a position further on
    in the same input, with the code units in between counted. *)
Lemma rep_suffix (p : char -> bool) :
  forall rest lo hi prev n k x,
    rep p lo hi prev rest n k = Some x ->
    exists m prev' rest',
      rest = m ++ rest' /\ k prev' rest' (n + length m) = Some x.
Proof.
  induction rest as [|c rest IH]; intros lo hi prev n k x H.
  - exists [], prev, []. rewrite Nat.add_0_r. split; [reflexivity |].
    simpl in H. destruct hi as [[|h]|], lo; congruence.
  - assert (Stop : match lo with O => k prev (c :: rest) n | S _ => None end = Some x ->
                   exists m prev' rest',
                     c :: rest = m ++ rest' /\ k prev' rest' (n + length m) = Some x).
    { intros E. exists [], prev, (c :: rest). rewrite Nat.add_0_r.
      split; [reflexivity |]. destruct lo; congruence. }
    assert (More : forall lo' hi', rep p lo' hi' (Some c) rest (S n) k = Some x ->
                   exists m prev' rest',
                     c :: rest = m ++ rest' /\ k prev' rest' (n + length m) = Some x).
    { intros lo' hi' R. apply IH in R. destruct R as (m & prev' & rest' & -> & K).
      exists (c :: m), prev', rest'. cbn [length]. rewrite Nat.add_succ_r. auto. }
    simpl in H.
    destruct hi as [[|h]|]; [auto | |]; (destruct (p c); [| auto]).
    + destruct (rep p (Nat.pred lo) _ (Some c) rest (S n) k) as [y|] eqn:R; [| auto].
      injection H as ->. eauto.
    + destruct (rep p (Nat.pred lo) _ (Some c) rest (S n) k) as [y|] eqn:R; [| auto].
      injection H as ->. eauto.
Qed.

Lemma exec_suffix (r : regex) :
  forall prev rest n k x,
    exec r prev rest n k = Some x ->
    exists m prev' rest',
      rest = m ++ rest' /\ k prev' rest' (n + length m) = Some x.
Proof.
  induction r as [c | r1 IH1 r2 IH2 | r1 IH1 r2 IH2 | r1 IH1 | p lo hi | | p | p];
    intros prev rest n k x H; simpl in H.
  - destruct rest as [|c' rest]; [discriminate |].
    destruct (c' =? c)%N; [| discriminate].
    exists [c'], (Some c'), rest. cbn [length]. rewrite Nat.add_1_r. auto.
  - apply IH1 in H. destruct H as (m1 & p1 & rest1 & -> & H).
    apply IH2 in H. destruct H as (m2 & p2 & rest2 & -> & H).
    exists (m1 ++ m2), p2, rest2.
    rewrite <- app_assoc, length_app, Nat.add_assoc. auto.
  - destruct (exec r1 prev rest n k) as [y|] eqn:E.
    + injection H as ->. eauto.
    + eauto.
  - destruct (exec r1 prev rest n k) as [y|] eqn:E.
    + injection H as ->. eauto.
    + exists [], prev, rest. rewrite Nat.add_0_r. auto.
  - eapply rep_suffix; eassumption.
  - destruct (xorb _ _); [| discriminate].
    exists [], prev, rest. rewrite Nat.add_0_r. auto.
  - destruct (test_opt p prev); [discriminate |].
    exists [], prev, rest. rewrite Nat.add_0_r. auto.
  - destruct (test_opt p (hd_error rest)); [discriminate |].
    exists [], prev, rest. rewrite Nat.add_0_r. auto.
Qed.

(** A match is a prefix of the input at its position. *)
Lemma match_at_suffix (r : regex) (prev : option char) (rest after : jsstring)
    (len : nat) :
  match_at r prev rest = Some (len, after) ->
  exists m, rest = m ++ after /\ len = length m.
Proof.
  intros H. apply exec_suffix in H. destruct H as (m & _ & rest' & -> & E).
  injection E as <- <-. exists m; auto.
Qed.

Lemma match_at_length (r : regex) (prev : option char) (rest after : jsstring)
    (len : nat) :
  match_at r prev rest = Some (len, after) ->
  rest = firstn len rest ++ after.
Proof.
  intros H. apply match_at_suffix in H. destruct H as (m & -> & ->).
  rewrite firstn_app, Nat.sub_diag, firstn_all. simpl. rewrite app_nil_r. reflexivity.
Qed.

(** ** The search loop *)

(** The pieces of a search, put together again, are the text searched. *)
Lemma exec_loop_text (r : regex) :
  forall rest prev skip,
    skip <= length rest ->
    text_of (exec_loop r prev rest skip) = skipn skip rest.
Proof.
  induction rest as [|c rest IH]; intros prev skip L.
  - simpl in L. assert (skip = 0) by lia. subst. simpl.
    destruct (match_at r prev []) as [[len after]|] eqn:E; [| reflexivity].
    apply match_at_suffix in E. destruct E as (m & E & ->).
    symmetry in E. apply app_eq_nil in E. destruct E as [-> ->]. reflexivity.
  - destruct skip as [|n].
    + cbn [exec_loop skipn].
      destruct (match_at r prev (c :: rest)) as [[len after]|] eqn:E.
      * apply match_at_suffix in E. destruct E as (m & M & ->).
        destruct m as [|c' m].
        -- cbn [length firstn text_of flat_map app].
           change (flat_map _ ?l) with (text_of l). rewrite IH by lia. reflexivity.
        -- cbn [length]. cbn [text_of flat_map].
           change (flat_map _ ?l) with (text_of l).
           assert (Lr : length m <= length rest).
           { apply (f_equal (@length _)) in M. rewrite length_app in M. simpl in M. lia. }
           rewrite IH by assumption.
           simpl in M. injection M as <- M. subst rest.
           cbn [firstn]. rewrite firstn_app, Nat.sub_diag, firstn_all. simpl.
           rewrite app_nil_r, skipn_app, Nat.sub_diag, skipn_all. reflexivity.
      * cbn [text_of flat_map app]. change (flat_map _ ?l) with (text_of l).
        rewrite IH by lia. reflexivity.
    + simpl in L. cbn [exec_loop skipn]. apply IH. lia.
Qed.

(** A replacer that gives back every match it is given changes nothing. *)
Lemma replace_unchanged (s : jsstring) (re : regex) (f : jsstring -> jsstring) :
  (forall m, In (Matched m) (exec_loop re None s 0) -> f m = m) ->
  replace s re f = s.
Proof.
  intros H. unfold replace.
  rewrite <- (exec_loop_text re s None 0) at 2 by lia. unfold text_of.
  induction (exec_loop re None s 0) as [|[c|m] ps IH]; simpl; [reflexivity | |].
  - rewrite IH; [reflexivity |]. intros m Hm. apply H. right; assumption.
  - rewrite H by (left; reflexivity). rewrite IH; [reflexivity |].
    intros m' Hm. apply H. right; assumption.
Qed.

Lemma starts_with_occurs (p s : jsstring) :
  starts_with p s = true -> occurs p s = true.
Proof. intros H. destruct s; simpl in *; rewrite H; reflexivity. Qed.

Lemma occurs_cons (p : jsstring) (c : char) (s : jsstring) :
  occurs p s = true -> occurs p (c :: s) = true.
Proof. intros H. cbn [occurs]. rewrite H. apply orb_true_r. Qed.

(** Every match of a search is a substring of the text searched. *)
Lemma exec_loop_occurs (r : regex) (m : jsstring) :
  forall rest prev skip,
    In (Matched m) (exec_loop r prev rest skip) -> occurs m rest = true.
Proof.
  induction rest as [|c rest IH]; intros prev skip H.
  - destruct skip; simpl in H; [| destruct H].
    destruct (match_at r prev []) as [[len after]|] eqn:E; [| destruct H].
    destruct H as [H | []]. injection H as <-. destruct len; reflexivity.
  - destruct skip as [|n]; cbn [exec_loop] in H.
    + destruct (match_at r prev (c :: rest)) as [[len after]|] eqn:E.
      * destruct H as [H | H].
        -- injection H as Hm. apply starts_with_occurs, starts_with_app.
           exists after. rewrite <- Hm. apply (match_at_length _ _ _ _ _ E).
        -- apply occurs_cons. destruct len.
           ++ destruct H as [H | H]; [discriminate | eauto].
           ++ eauto.
      * destruct H as [H | H]; [discriminate |]. apply occurs_cons; eauto.
    + apply occurs_cons; eauto.
Qed.

(** ** The placeholder expression *)

(** One alternative of [PLACEHOLDER_RE]: the label, the underscore, four
    digits. *)
Lemma exec_label (l : label) (prev : option char) (s : jsstring) (k : cont) :
  exec (Lit (label_name l ++ str "_") (exactly is_digit 4)) prev s 0 k =
  match token_at l s with
  | Some (tok, after) => k (last_of prev tok) after (length tok)
  | None => None
  end.
Proof.
  rewrite exec_Lit. unfold token_at.
  destruct (starts_with (label_name l ++ str "_") s); [| reflexivity].
  unfold exactly; cbn [exec]. rewrite rep_exactly.
  destruct (take_class is_digit 4 _) as [[ds after]|] eqn:T; [| reflexivity].
  apply take_class_sound in T. destruct T as (_ & L & _).
  rewrite (last_of_app prev (label_name l ++ str "_") ds).
  rewrite (length_app (label_name l ++ str "_") ds), L.
  reflexivity.
Qed.

Lemma match_at_PLACEHOLDER (prev : option char) (s : jsstring) :
  match_at PLACEHOLDER_RE prev s =
  if xorb (test_opt is_word prev) (test_opt is_word (hd_error s)) then
    match try_label SSN prev s with
    | Some x => Some x
    | None =>
        match try_label EMAIL prev s with
        | Some x => Some x
        | None => try_label PHONE_NUMBER prev s
        end
    end
  else None.
Proof.
  unfold match_at, PLACEHOLDER_RE. cbn [exec].
  destruct (xorb _ _); [| reflexivity].
  change (str "SSN_") with (label_name SSN ++ str "_").
  change (str "EMAIL_") with (label_name EMAIL ++ str "_").
  change (str "PHONE_NUMBER_") with (label_name PHONE_NUMBER ++ str "_").
  rewrite !exec_label. unfold try_label. cbn [exec].
  reflexivity.
Qed.

Lemma token_at_sound (l : label) (s tok after : jsstring) :
  token_at l s = Some (tok, after) ->
  exists ds, tok = placeholder_text l ds /\ s = tok ++ after /\ four_digits ds = true.
Proof.
  unfold token_at, placeholder_text, four_digits.
  destruct (starts_with _ s) eqn:P; [| discriminate].
  apply starts_with_app in P. destruct P as [t ->].
  rewrite skipn_app, Nat.sub_diag, skipn_all. simpl skipn. cbn [app].
  destruct (take_class is_digit 4 t) as [[ds after']|] eqn:T; [| discriminate].
  intros E; injection E as <- <-.
  apply take_class_sound in T. destruct T as (-> & L & F).
  exists ds. rewrite L, F, <- !app_assoc. auto.
Qed.

Lemma token_at_complete (l : label) (ds after : jsstring) :
  four_digits ds = true ->
  token_at l (placeholder_text l ds ++ after) =
    Some (placeholder_text l ds, after).
Proof.
  unfold four_digits, token_at, placeholder_text. intros H.
  apply andb_true_iff in H. destruct H as [L F]. apply Nat.eqb_eq in L.
  rewrite <- !app_assoc.
  assert (P : starts_with (label_name l ++ str "_")
                ((label_name l ++ str "_") ++ ds ++ after) = true)
    by (apply starts_with_app; eexists; reflexivity).
  rewrite <- app_assoc in P. rewrite P.
  replace (skipn _ _) with (ds ++ after).
  - rewrite <- L, take_class_complete by assumption. rewrite <- app_assoc. reflexivity.
  - rewrite (app_assoc (label_name l)), skipn_app, Nat.sub_diag, skipn_all. reflexivity.
Qed.

(** Two different labels never begin the same text. *)
Lemma token_at_other (l l' : label) (ds after : jsstring) :
  l <> l' -> token_at l (placeholder_text l' ds ++ after) = None.
Proof.
  intros D. destruct l, l'; try congruence; reflexivity.
Qed.

Lemma is_digit_word (c : char) : is_digit c = true -> is_word c = true.
Proof. unfold is_word. intros ->. rewrite orb_true_r. reflexivity. Qed.

(** A placeholder is made of word characters and is not empty. *)
Lemma placeholder_word (l : label) (ds : jsstring) :
  forallb is_digit ds = true -> forallb is_word (placeholder_text l ds) = true.
Proof.
  intros F. unfold placeholder_text. rewrite !forallb_app.
  assert (W : forallb is_word ds = true).
  { rewrite forallb_forall in *. intros c Hc. apply is_digit_word; auto. }
  rewrite W. destruct l; reflexivity.
Qed.

Lemma placeholder_cons (l : label) (ds : jsstring) :
  exists c tok', placeholder_text l ds = c :: tok' /\ is_word c = true.
Proof. destruct l; eexists; eexists; split; reflexivity. Qed.

Lemma last_of_word (prev : option char) (m : jsstring) :
  m <> [] -> forallb is_word m = true -> test_opt is_word (last_of prev m) = true.
Proof.
  revert prev; induction m as [|c m IH]; intros prev N F; [congruence |].
  simpl in F. apply andb_true_iff in F. destruct F as [Wc F].
  destruct m as [|c' m]; [exact Wc |].
  change (last_of prev (c :: c' :: m)) with (last_of (Some c) (c' :: m)).
  apply IH; [discriminate | assumption].
Qed.

Lemma four_digits_digits (ds : jsstring) :
  four_digits ds = true -> forallb is_digit ds = true.
Proof. unfold four_digits. intros H. apply andb_true_iff in H. tauto. Qed.

Lemma placeholder_last_word (prev : option char) (l : label) (ds : jsstring) :
  four_digits ds = true ->
  test_opt is_word (last_of prev (placeholder_text l ds)) = true.
Proof.
  intros H. apply last_of_word.
  - destruct (placeholder_cons l ds) as (c & t & -> & _). discriminate.
  - apply placeholder_word, four_digits_digits, H.
Qed.

(** [PLACEHOLDER_RE] matches at a position exactly when a placeholder
    stands there as a whole word. *)
Lemma match_at_placeholder_sound (prev : option char) (s after : jsstring)
    (len : nat) :
  match_at PLACEHOLDER_RE prev s = Some (len, after) ->
  exists l ds,
    four_digits ds = true /\ s = placeholder_text l ds ++ after /\
    len = length (placeholder_text l ds) /\
    test_opt is_word prev = false /\
    test_opt is_word (hd_error after) = false.
Proof.
  rewrite match_at_PLACEHOLDER.
  destruct (xorb _ _) eqn:B; [| discriminate].
  assert (T : forall l, try_label l prev s = Some (len, after) ->
    exists l ds,
      four_digits ds = true /\ s = placeholder_text l ds ++ after /\
      len = length (placeholder_text l ds) /\
      test_opt is_word prev = false /\
      test_opt is_word (hd_error after) = false).
  { intros l. unfold try_label.
    destruct (token_at l s) as [[tok after']|] eqn:E; [| discriminate].
    apply token_at_sound in E. destruct E as (ds & -> & -> & F).
    rewrite (placeholder_last_word prev l ds F). simpl xorb.
    destruct (test_opt is_word (hd_error after')) eqn:A; [discriminate |].
    intros H; injection H as <- ->.
    exists l, ds. repeat split; try assumption.
    destruct (placeholder_cons l ds) as (c & t & P & W).
    rewrite P in B. simpl in B. rewrite W in B.
    destruct (test_opt is_word prev); [discriminate | reflexivity]. }
  destruct (try_label SSN prev s) eqn:E1; [intros H; rewrite <- H in *; eauto |].
  destruct (try_label EMAIL prev s) eqn:E2; [intros H; rewrite <- H in *; eauto |].
  eauto.
Qed.

Lemma match_at_placeholder_complete (prev : option char) (l : label)
    (ds after : jsstring) :
  four_digits ds = true ->
  test_opt is_word prev = false ->
  test_opt is_word (hd_error after) = false ->
  match_at PLACEHOLDER_RE prev (placeholder_text l ds ++ after) =
    Some (length (placeholder_text l ds), after).
Proof.
  intros F P A. rewrite match_at_PLACEHOLDER.
  destruct (placeholder_cons l ds) as (c & t & Pc & W).
  assert (B : xorb (test_opt is_word prev)
                (test_opt is_word (hd_error (placeholder_text l ds ++ after))) = true).
  { rewrite Pc. simpl. rewrite W, P. reflexivity. }
  rewrite B.
  assert (T : try_label l prev (placeholder_text l ds ++ after) =
              Some (length (placeholder_text l ds), after)).
  { unfold try_label. rewrite token_at_complete by assumption.
    rewrite (placeholder_last_word prev l ds F), A. reflexivity. }
  assert (O : forall l', l' <> l ->
            try_label l' prev (placeholder_text l ds ++ after) = None).
  { intros l' D. unfold try_label. rewrite token_at_other by assumption. reflexivity. }
  destruct l.
  - rewrite T. reflexivity.
  - rewrite (O SSN), T by discriminate. reflexivity.
  - rewrite (O SSN), (O EMAIL), T by discriminate. reflexivity.
Qed.

Lemma match_at_placeholder_nil (prev : option char) :
  match_at PLACEHOLDER_RE prev [] = None.
Proof.
  destruct (match_at PLACEHOLDER_RE prev []) as [[len after]|] eqn:E; [| reflexivity].
  apply match_at_placeholder_sound in E.
  destruct E as (l & ds & _ & E & _).
  destruct (placeholder_cons l ds) as (c & t & P & _). rewrite P in E. discriminate.
Qed.

Lemma match_at_placeholder_nonword (prev : option char) (c : char) (s : jsstring) :
  is_word c = false -> match_at PLACEHOLDER_RE prev (c :: s) = None.
Proof.
  intros W.
  destruct (match_at PLACEHOLDER_RE prev (c :: s)) as [[len after]|] eqn:E;
    [| reflexivity].
  apply match_at_placeholder_sound in E.
  destruct E as (l & ds & _ & E & _).
  destruct (placeholder_cons l ds) as (c' & t & P & W'). rewrite P in E.
  injection E as -> _. congruence.
Qed.

(** ** Restoration, piece by piece *)

Lemma last_of_nonempty (p q : option char) (a : jsstring) :
  a <> [] -> last_of p a = last_of q a.
Proof. destruct a; [congruence | reflexivity]. Qed.

Lemma ends_clean_tail (c : char) (a : jsstring) :
  ends_clean (c :: a) = true -> ends_clean a = true.
Proof.
  destruct a as [|c' a]; [reflexivity |]. intros H; exact H.
Qed.

Lemma ends_clean_last (prev : option char) (a : jsstring) :
  a <> [] -> ends_clean a = true -> test_opt is_word (last_of prev a) = false.
Proof.
  intros N H. unfold ends_clean in H. apply negb_true_iff in H.
  rewrite (last_of_nonempty prev None a N). assumption.
Qed.

(** A run of word characters at the front of a text that ends outside [\w]
    stops before the end of that text. *)
Lemma word_prefix_inside (tok : jsstring) :
  forall a r2 after,
    tok ++ after = a ++ r2 -> forallb is_word tok = true ->
    a <> [] -> ends_clean a = true ->
    exists rem, a = tok ++ rem /\ rem <> [] /\ after = rem ++ r2.
Proof.
  induction tok as [|t tok IH]; intros a r2 after E W N C.
  - exists a. auto.
  - destruct a as [|c a]; [congruence |].
    simpl in E. injection E as -> E.
    simpl in W. apply andb_true_iff in W. destruct W as [Wc W].
    destruct a as [|c' a].
    + unfold ends_clean in C. simpl in C. rewrite Wc in C. discriminate.
    + destruct (IH (c' :: a) r2 after E W) as (rem & Ea & Nr & Er);
        [discriminate | exact (ends_clean_tail _ _ C) |].
      exists rem. rewrite Ea. auto.
Qed.

(** Inside a text that ends outside [\w], what [PLACEHOLDER_RE] finds at a
    position does not depend on what follows the text. *)
Lemma match_at_placeholder_local (prev : option char) (a r2 : jsstring) :
  a <> [] -> ends_clean a = true ->
  match match_at PLACEHOLDER_RE prev a with
  | Some (len, rem) =>
      rem <> [] /\ len <= length a /\
      match_at PLACEHOLDER_RE prev (a ++ r2) = Some (len, rem ++ r2)
  | None => match_at PLACEHOLDER_RE prev (a ++ r2) = None
  end.
Proof.
  intros N C.
  destruct (match_at PLACEHOLDER_RE prev a) as [[len rem]|] eqn:E.
  - apply match_at_placeholder_sound in E.
    destruct E as (l & ds & F & -> & -> & P & A).
    assert (Nr : rem <> []).
    { intros ->. rewrite app_nil_r in C. unfold ends_clean in C.
      rewrite (placeholder_last_word None l ds F) in C. discriminate. }
    split; [assumption |]. split; [rewrite length_app; lia |].
    rewrite <- app_assoc. apply match_at_placeholder_complete; try assumption.
    destruct rem; [congruence | exact A].
  - destruct (match_at PLACEHOLDER_RE prev (a ++ r2)) as [[len after]|] eqn:E2;
      [| reflexivity].
    apply match_at_placeholder_sound in E2.
    destruct E2 as (l & ds & F & E2 & _ & P & A).
    symmetry in E2.
    destruct (word_prefix_inside _ _ _ _ E2
                (placeholder_word l ds (four_digits_digits ds F)) N C)
      as (rem & -> & Nr & ->).
    rewrite match_at_placeholder_complete in E; try assumption; [discriminate |].
    destruct rem; [congruence | exact A].
Qed.

(** The search passes over a match without looking at it. *)
Lemma exec_loop_skip (r : regex) (m : jsstring) :
  forall prev b,
    exec_loop r prev (m ++ b) (length m) = exec_loop r (last_of prev m) b 0.
Proof.
  induction m as [|c m IH]; intros prev b; [reflexivity |].
  cbn [length app exec_loop]. apply IH.
Qed.

(** The search of [a ++ r2], when [a] ends outside [\w], is the search of
    [a] followed by the search of [r2]. *)
Lemma exec_loop_placeholder_app (r2 : jsstring) :
  forall a prev skip,
    ends_clean a = true -> skip = 0 \/ skip < length a ->
    exec_loop PLACEHOLDER_RE prev (a ++ r2) skip =
    exec_loop PLACEHOLDER_RE prev a skip ++
    exec_loop PLACEHOLDER_RE (last_of prev a) r2 0.
Proof.
  induction a as [|c a IH]; intros prev skip C S.
  - assert (skip = 0) by (simpl in S; lia). subst.
    cbn [app exec_loop]. rewrite match_at_placeholder_nil. reflexivity.
  - pose proof (ends_clean_tail _ _ C) as C'.
    destruct skip as [|n].
    + pose proof (match_at_placeholder_local prev (c :: a) r2) as L.
      specialize (L ltac:(discriminate) C).
      change ((c :: a) ++ r2) with (c :: a ++ r2) in *.
      cbn [exec_loop].
      destruct (match_at PLACEHOLDER_RE prev (c :: a)) as [[len rem]|] eqn:E.
      * destruct L as (Nr & Ll & ->).
        apply match_at_suffix in E. destruct E as (m & E & ->).
        assert (F : firstn (length m) (c :: a ++ r2) = firstn (length m) (c :: a)).
        { change (c :: a ++ r2) with ((c :: a) ++ r2).
          rewrite E, <- app_assoc, !firstn_app, Nat.sub_diag, firstn_all. reflexivity. }
        rewrite F. cbn [app]. f_equal.
        destruct m as [|c' m].
        -- cbn [length]. cbn [app]. f_equal. apply IH; auto.
        -- cbn [length]. apply IH; [assumption |].
           right. apply (f_equal (@length _)) in E.
           rewrite length_app in E. cbn [length] in E.
           destruct rem; [congruence | cbn [length] in E; lia].
      * rewrite L. cbn [app]. f_equal. apply IH; auto.
    + cbn [app exec_loop]. apply IH; [assumption |].
      cbn [length] in S. right. destruct S; [discriminate | lia].
Qed.

(** At the front of a text that begins outside [\w], the search does not
    depend on what came before. *)
Lemma exec_loop_placeholder_prev (prev : option char) (b : jsstring) :
  starts_clean b = true ->
  exec_loop PLACEHOLDER_RE prev b 0 = exec_loop PLACEHOLDER_RE None b 0.
Proof.
  destruct b as [|c b]; intros C.
  - cbn [exec_loop]. rewrite !match_at_placeholder_nil. reflexivity.
  - unfold starts_clean in C. simpl in C. apply negb_true_iff in C.
    cbn [exec_loop]. rewrite !match_at_placeholder_nonword by assumption.
    reflexivity.
Qed.

Lemma is_placeholder_spec (tok : jsstring) :
  is_placeholder tok = true ->
  exists l ds, tok = placeholder_text l ds /\ four_digits ds = true.
Proof.
  unfold is_placeholder. rewrite existsb_exists.
  intros (l & _ & H). apply andb_true_iff in H. destruct H as [P F].
  apply starts_with_app in P. destruct P as [t ->].
  rewrite skipn_app, Nat.sub_diag, skipn_all in F. cbn [app skipn] in F.
  exists l, t. unfold placeholder_text. rewrite <- app_assoc. auto.
Qed.

(** The search of [a tok b], for a placeholder [tok] that stands as a whole
    word between [a] and [b]. *)
Lemma exec_loop_placeholder_token (a tok b : jsstring) :
  is_placeholder tok = true -> ends_clean a = true -> starts_clean b = true ->
  exec_loop PLACEHOLDER_RE None (a ++ tok ++ b) 0 =
  exec_loop PLACEHOLDER_RE None a 0 ++ Matched tok ::
  exec_loop PLACEHOLDER_RE None b 0.
Proof.
  intros T Ca Cb.
  rewrite exec_loop_placeholder_app by auto. f_equal.
  apply is_placeholder_spec in T. destruct T as (l & ds & -> & F).
  assert (P : test_opt is_word (last_of None a) = false).
  { unfold ends_clean in Ca. apply negb_true_iff in Ca. exact Ca. }
  assert (A : test_opt is_word (hd_error b) = false).
  { unfold starts_clean in Cb. apply negb_true_iff in Cb. exact Cb. }
  pose proof (match_at_placeholder_complete (last_of None a) l ds b F P A) as M.
  destruct (placeholder_cons l ds) as (c & t & E & W).
  rewrite E in *. cbn [app exec_loop]. cbn [app] in M. rewrite M.
  cbn [length firstn]. rewrite firstn_app, Nat.sub_diag, firstn_all.
  cbn [firstn]. rewrite app_nil_r. f_equal.
  rewrite exec_loop_skip. apply exec_loop_placeholder_prev; assumption.
Qed.

Lemma replace_pieces (s : jsstring) (re : regex) (f : jsstring -> jsstring) :
  replace s re f =
  flat_map (fun p => match p with Matched m => f m | Copied c => [c] end)
    (exec_loop re None s 0).
Proof. reflexivity. Qed.

(** One-shot restoration of [a tok b]: [a] restored, the value of [tok] or
    [tok] itself, [b] restored. *)
Lemma unredactOnce_token (a tok b : jsstring) (m : Mapping) :
  is_placeholder tok = true -> ends_clean a = true -> starts_clean b = true ->
  unredactOnce (a ++ tok ++ b) m =
  unredactOnce a m ++ restore m tok ++ unredactOnce b m.
Proof.
  intros T Ca Cb. unfold unredactOnce. rewrite !replace_pieces.
  rewrite exec_loop_placeholder_token by assumption.
  rewrite flat_map_app. reflexivity.
Qed.

(** Restoration leaves a text alone in which no key of the mapping occurs. *)
Lemma unredactOnce_no_key (text : jsstring) (m : Mapping) :
  free_of_keys m text = true -> unredactOnce text m = text.
Proof.
  unfold free_of_keys. intros H. unfold unredactOnce. apply replace_unchanged.
  intros tok Hin. apply exec_loop_occurs in Hin.
  unfold restore. destruct (lookup m tok) as [v|] eqn:L; [| reflexivity].
  apply lookup_In in L. rewrite forallb_forall in H.
  assert (K : In tok (keys m)).
  { unfold keys. change tok with (fst (tok, v)). apply in_map; assumption. }
  apply H in K. rewrite Hin in K. discriminate.
Qed.

(** [PLACEHOLDER_RE] finds nothing in a text without a substring of the
    placeholder grammar. *)
Lemma exec_loop_no_placeholder :
  forall text prev,
    contains_placeholder text = false ->
    exec_loop PLACEHOLDER_RE prev text 0 = map Copied text.
Proof.
  induction text as [|c text IH]; intros prev H.
  - cbn [exec_loop]. rewrite match_at_placeholder_nil. reflexivity.
  - cbn [contains_placeholder] in H. apply orb_false_iff in H. destruct H as [A H].
    cbn [exec_loop map].
    destruct (match_at PLACEHOLDER_RE prev (c :: text)) as [[len after]|] eqn:E.
    + apply match_at_placeholder_sound in E.
      destruct E as (l & ds & F & E & _).
      unfold placeholder_at in A. 
      assert (X : existsb (fun l => match token_at l (c :: text) with
                                    | Some _ => true | None => false end) labels = true).
      { apply existsb_exists. exists l. split; [destruct l; simpl; tauto |].
        rewrite E, token_at_complete by assumption. reflexivity. }
      congruence.
    + f_equal. apply IH; assumption.
Qed.

Lemma is_placeholder_complete (l : label) (ds : jsstring) :
  four_digits ds = true -> is_placeholder (placeholder_text l ds) = true.
Proof.
  intros F. unfold is_placeholder. apply existsb_exists.
  exists l. split; [destruct l; simpl; tauto |].
  unfold placeholder_text. rewrite app_assoc.
  apply andb_true_iff. split.
  - apply starts_with_app. eexists; reflexivity.
  - rewrite skipn_app, Nat.sub_diag, skipn_all. exact F.
Qed.

(** [contains_placeholder] says what its name says. *)
Lemma contains_placeholder_true (text : jsstring) :
  contains_placeholder text = true <->
  exists pre tok post, text = pre ++ tok ++ post /\ is_placeholder tok = true.
Proof.
  split.
  - induction text as [|c text IH]; cbn [contains_placeholder]; intros H;
      apply orb_true_iff in H.
    + destruct H as [H | H]; [| discriminate].
      unfold placeholder_at in H. apply existsb_exists in H.
      destruct H as (l & _ & H). destruct l; discriminate.
    + destruct H as [H | H].
      * unfold placeholder_at in H. apply existsb_exists in H.
        destruct H as (l & _ & H).
        destruct (token_at l (c :: text)) as [[tok after]|] eqn:E; [| discriminate].
        apply token_at_sound in E. destruct E as (ds & -> & E & F).
        exists [], (placeholder_text l ds), after.
        split; [exact E | apply is_placeholder_complete, F].
      * destruct (IH H) as (pre & tok & post & -> & P).
        exists (c :: pre), tok, post. auto.
  - intros (pre & tok & post & -> & P).
    apply is_placeholder_spec in P. destruct P as (l & ds & -> & F).
    induction pre as [|c pre IH].
    + assert (A : placeholder_at (placeholder_text l ds ++ post) = true).
      { unfold placeholder_at. apply existsb_exists.
        exists l. split; [destruct l; simpl; tauto |].
        rewrite token_at_complete by assumption. reflexivity. }
      cbn [app]. destruct (placeholder_text l ds ++ post);
        cbn [contains_placeholder]; rewrite A; reflexivity.
    + cbn [app contains_placeholder]. rewrite IH. apply orb_true_r.
Qed.

Lemma contains_placeholder_false (text : jsstring) :
  contains_placeholder text = false <->
  forall pre tok post, text = pre ++ tok ++ post -> is_placeholder tok = false.
Proof.
  split.
  - intros H pre tok post E.
    destruct (is_placeholder tok) eqn:P; [| reflexivity].
    assert (C : contains_placeholder text = true)
      by (apply contains_placeholder_true; eauto).
    congruence.
  - intros H. destruct (contains_placeholder text) eqn:C; [| reflexivity].
    apply contains_placeholder_true in C.
    destruct C as (pre & tok & post & E & P).
    rewrite (H _ _ _ E) in P. discriminate.
Qed.

(** C7. On a text with no substring of the placeholder grammar, one-shot
    restoration is the identity, whatever the mapping. *)
Theorem unredactOnce_placeholder_free (text : jsstring) (m : Mapping) :
  (forall pre tok post, text = pre ++ tok ++ post -> is_placeholder tok = false) ->
  unredactOnce text m = text.
Proof.
  intros H. apply contains_placeholder_false in H.
  unfold unredactOnce. rewrite replace_pieces.
  rewrite exec_loop_no_placeholder by assumption.
  clear H. induction text as [|c text IH]; [reflexivity |].
  cbn [map flat_map app]. rewrite IH. reflexivity.
Qed.

Lemma unredactOnce_placeholder_free_witness :
  unredactOnce (str "Thanks, see you at 10:30 - room SSN_12, ext. 0001.")
    scenario_mapping
  = str "Thanks, see you at 10:30 - room SSN_12, ext. 0001.".
Proof.
  apply unredactOnce_placeholder_free.
  apply contains_placeholder_false. vm_compute. reflexivity.
Defined.



(** Restoration of a text cut into pieces by placeholders that stand as
    whole words: piece by piece and token by token. *)
Lemma unredactOnce_interleave (m : Mapping) :
  forall ws ts,
    delimited ws ts = true -> forallb is_placeholder ts = true ->
    unredactOnce (interleave ws ts) m =
    interleave (map (fun w => unredactOnce w m) ws) (map (restore m) ts).
Proof.
  induction ws as [|w ws IH]; intros ts D P; [discriminate |].
  destruct ws as [|w' ws'].
  - destruct ts; [reflexivity | discriminate].
  - destruct ts as [|t ts]; [discriminate |].
    cbn [delimited] in D. apply andb_true_iff in D. destruct D as [D Dr].
    apply andb_true_iff in D. destruct D as [D Dn].
    apply andb_true_iff in D. destruct D as [Cw Cw'].
    cbn [forallb] in P. apply andb_true_iff in P. destruct P as [Pt P].
    change (interleave (w :: w' :: ws') (t :: ts))
      with (w ++ t ++ interleave (w' :: ws') ts).
    rewrite unredactOnce_token; try assumption.
    + rewrite IH by assumption. reflexivity.
    + destruct ts as [|t' ts].
      * destruct ws'; [exact Cw' | discriminate].
      * destruct w' as [|c w']; [discriminate | exact Cw'].
Qed.

Lemma map_unredactOnce_free (m : Mapping) (ws : list jsstring) :
  forallb (free_of_keys m) ws = true -> map (fun w => unredactOnce w m) ws = ws.
Proof.
  induction ws as [|w ws IH]; [reflexivity |].
  cbn [forallb map]. intros H. apply andb_true_iff in H. destruct H as [F H].
  rewrite unredactOnce_no_key, IH by assumption. reflexivity.
Qed.

Lemma redactLabel_no_match (pat : label -> RegExp) (st : Locals) (l : label) :
  matchAll (modified st) (new_RegExp (pat l)) = [] -> redactLabel pat st l = st.
Proof. unfold redactLabel. intros ->. reflexivity. Qed.

(** When the catalog finds nothing, [redactText] changes nothing. *)
Lemma redactText_no_match (text : jsstring) :
  (forall l, matchAll text (new_RegExp (PII_PATTERNS fresh_globals l)) = []) ->
  redactText text = {| redactedText := text; mapping_of := [] |}.
Proof.
  intros H. unfold redactText, redactText_st. cbn [fst labels fold_left].
  set (st0 := {| modified := text; mapping := []; counters := initial_counters |}).
  rewrite (redactLabel_no_match _ st0 SSN) by apply H.
  rewrite (redactLabel_no_match _ st0 EMAIL) by apply H.
  rewrite (redactLabel_no_match _ st0 PHONE_NUMBER) by apply H.
  reflexivity.
Qed.

(** ** Counting placeholders *)

Lemma redactMatch_keys (l : label) (st : Locals) (mtch k : jsstring) :
  In k (keys (mapping st)) -> In k (keys (mapping (redactMatch l st mtch))).
Proof.
  unfold redactMatch. destruct (includes _ _); [tauto |].
  cbn [mapping]. apply keys_set_grow.
Qed.

Lemma fold_redactMatch_keys (l : label) (k : jsstring) (ms : list jsstring) :
  forall st,
    In k (keys (mapping st)) ->
    In k (keys (mapping (fold_left (redactMatch l) ms st))).
Proof.
  induction ms as [|m ms IH]; intros st H; [exact H |].
  cbn [fold_left]. apply IH, redactMatch_keys, H.
Qed.

Lemma bump_same (c : Counters) (l : label) : bump c l l = (c l + 1)%N.
Proof. unfold bump. destruct l; reflexivity. Qed.

(** Matches that differ from each other and from every value recorded so
    far are given the placeholders of consecutive counter values. *)
Lemma fold_redactMatch_mints (l : label) (ms : list jsstring) :
  forall st,
    NoDup ms ->
    (forall m, In m ms -> ~ In m (values (mapping st))) ->
    forall i, i < length ms ->
      In (placeholder_of l (counters st l + N.of_nat i))
         (keys (mapping (fold_left (redactMatch l) ms st))).
Proof.
  induction ms as [|m ms IH]; intros st ND Fresh i Hi; [inversion Hi |].
  inversion ND as [|? ? Hm ND']; subst.
  cbn [fold_left].
  assert (E : includes (values (mapping st)) m = false).
  { destruct (includes (values (mapping st)) m) eqn:E; [| reflexivity].
    apply includes_In in E. destruct (Fresh m (or_introl eq_refl) E). }
  assert (R : redactMatch l st m =
              {| modified := join (split (modified st) m)
                               (placeholder_of l (counters st l));
                 mapping := set (mapping st) (placeholder_of l (counters st l)) m;
                 counters := bump (counters st) l |}).
  { unfold redactMatch. rewrite E. reflexivity. }
  rewrite R. destruct i as [|i].
  - apply fold_redactMatch_keys. cbn [mapping].
    rewrite N.add_0_r. apply In_keys_set_new.
  - replace (counters st l + N.of_nat (S i))%N
      with (bump (counters st) l l + N.of_nat i)%N
      by (rewrite bump_same; lia).
    apply (IH {| modified := join (split (modified st) m)
                               (placeholder_of l (counters st l));
                 mapping := set (mapping st) (placeholder_of l (counters st l)) m;
                 counters := bump (counters st) l |}).
    + assumption.
    + cbn [mapping]. intros m' Hin Hv. apply In_values_set in Hv.
      destruct Hv as [-> | Hv]; [tauto |].
      apply (Fresh m' (or_intror Hin) Hv).
    + cbn [length] in Hi. lia.
Qed.

Lemma digit_is_digit (n : N) : is_digit (digit n) = true.
Proof.
  unfold is_digit, in_range, digit.
  apply andb_true_iff.
  split; apply N.leb_le; zify; Z.to_euclidean_division_equations; lia.
Qed.

Lemma number_of_four (n : N) : (n < 10000)%N -> number_of (four n) = n.
Proof.
  intros H. unfold number_of, four, digit. cbn [fold_left].
  rewrite !(N.add_comm 48), !N.add_sub.
  zify. Z.to_euclidean_division_equations. lia.
Qed.

Lemma ssn_numbers_differ : NoDup (map ssn_number (seq 0 how_many)).
Proof.
  apply (NoDup_map_inv (fun s => N.to_nat (number_of (skipn 7 s)))).
  rewrite map_map.
  rewrite (map_ext_in _ (fun i => i)), map_id; [apply seq_NoDup |].
  intros i Hi. apply in_seq in Hi. unfold how_many in Hi.
  unfold ssn_number. change (skipn 7 (str "123-45-" ++ ?t)) with t.
  rewrite number_of_four by lia. apply Nat2N.id.
Qed.

Lemma take_class_app (p : char -> bool) (n : nat) (ds after : jsstring) :
  length ds = n -> forallb p ds = true ->
  take_class p n (ds ++ after) = Some (ds, after).
Proof. intros <-. apply take_class_complete. Qed.

Lemma forallb_digit_word (ds : jsstring) :
  forallb is_digit ds = true -> forallb is_word ds = true.
Proof.
  rewrite !forallb_forall. intros H c Hc. apply is_digit_word; auto.
Qed.

(** [SSN_RE] matches three digits, two digits and four digits with hyphens
    between them, when they stand as a whole word. *)
Lemma match_at_SSN_RE (prev : option char) (a b c rest : jsstring) :
  length a = 3 -> forallb is_digit a = true ->
  length b = 2 -> forallb is_digit b = true ->
  length c = 4 -> forallb is_digit c = true ->
  test_opt is_word prev = false ->
  test_opt is_word (hd_error rest) = false ->
  match_at SSN_RE prev (a ++ 45%N :: b ++ 45%N :: c ++ rest) = Some (11, rest).
Proof.
  intros La Fa Lb Fb Lc Fc P R.
  unfold match_at, SSN_RE, exactly. cbn [seq_of exec].
  assert (W : test_opt is_word (hd_error (a ++ 45%N :: b ++ 45%N :: c ++ rest)) = true).
  { destruct a as [|a1 a]; [discriminate |].
    simpl in Fa. apply andb_true_iff in Fa. destruct Fa as [Fa _].
    exact (is_digit_word a1 Fa). }
  rewrite W, P. cbn [xorb].
  rewrite rep_exactly, (take_class_app is_digit 3 a _ La Fa).
  change (c_of "-") with 45%N. rewrite N.eqb_refl.
  rewrite rep_exactly, (take_class_app is_digit 2 b _ Lb Fb).
  rewrite N.eqb_refl.
  rewrite rep_exactly, (take_class_app is_digit 4 c _ Lc Fc).
  rewrite last_of_word, R; [reflexivity | | apply forallb_digit_word, Fc].
  destruct c; discriminate.
Qed.

Lemma four_is_four_digits (n : N) :
  length (four n) = 4 /\ forallb is_digit (four n) = true.
Proof.
  split; [reflexivity |]. unfold four. cbn [forallb].
  rewrite !digit_is_digit. reflexivity.
Qed.

(** [SSN_RE] at the front of one of the numbers, after a character outside
    [\w] or at the start. *)
Lemma match_at_ssn_number (prev : option char) (i : nat) (rest : jsstring) :
  test_opt is_word prev = false ->
  match_at SSN_RE prev (ssn_number i ++ str " " ++ rest) =
    Some (11, str " " ++ rest).
Proof.
  intros P. destruct (four_is_four_digits (N.of_nat i)) as [L F].
  unfold ssn_number. rewrite <- app_assoc.
  apply (match_at_SSN_RE prev (str "123") (str "45") (four (N.of_nat i))
           (str " " ++ rest)); auto.
Qed.

(** [SSN_RE] does not match at a space, nor at the end. *)
Lemma match_at_SSN_RE_space (prev : option char) (rest : jsstring) :
  match_at SSN_RE prev (str " " ++ rest) = None.
Proof.
  unfold match_at, SSN_RE, exactly. cbn [seq_of exec].
  destruct (xorb _ _); reflexivity.
Qed.

Lemma match_at_SSN_RE_nil (prev : option char) : match_at SSN_RE prev [] = None.
Proof.
  unfold match_at, SSN_RE, exactly. cbn [seq_of exec].
  destruct (xorb _ _); reflexivity.
Qed.

(** The search for [SSN_RE] through the numbers finds each of them. *)
Lemma exec_loop_ssn_numbers (l : list nat) :
  forall prev,
    test_opt is_word prev = false ->
    exec_loop SSN_RE prev (flat_map (fun i => ssn_number i ++ str " ") l) 0 =
    flat_map (fun i => [Matched (ssn_number i); Copied 32%N]) l.
Proof.
  induction l as [|i l IH]; intros prev P.
  - cbn [flat_map exec_loop]. rewrite match_at_SSN_RE_nil. reflexivity.
  - cbn [flat_map]. rewrite <- app_assoc.
    set (rest := flat_map (fun i => ssn_number i ++ str " ") l) in *.
    pose proof (match_at_ssn_number prev i rest P) as M.
    destruct (ssn_number i) as [|c0 t] eqn:E; [discriminate |].
    assert (Lt : length t = 10).
    { apply (f_equal (@length _)) in E. cbn [length ssn_number str] in E.
      change (length (ssn_number i)) with 11 in E. lia. }
    cbn [app exec_loop] in *. rewrite M.
    replace (firstn 11 (c0 :: t ++ str " " ++ rest)) with (c0 :: t)
      by (replace 11 with (length (c0 :: t)) by (cbn [length]; lia);
          change (c0 :: t ++ str " " ++ rest) with ((c0 :: t) ++ str " " ++ rest);
          rewrite firstn_app, Nat.sub_diag, firstn_all, app_nil_r; reflexivity).
    f_equal.
    rewrite <- Lt, exec_loop_skip.
    change (str " " ++ rest) with (32%N :: rest). cbn [exec_loop].
    change (32%N :: rest) with (str " " ++ rest).
    rewrite match_at_SSN_RE_space. f_equal. apply IH. reflexivity.
Qed.

Lemma matchAll_ssn_numbers (l : list nat) :
  matchAll (flat_map (fun i => ssn_number i ++ str " ") l)
    (new_RegExp (PII_PATTERNS fresh_globals SSN)) = map ssn_number l.
Proof.
  unfold matchAll.
  cbn [lastIndex new_RegExp source PII_PATTERNS pattern_of Nat.ltb Nat.leb
       firstn skipn rev hd_error].
  rewrite exec_loop_ssn_numbers by reflexivity.
  induction l as [|i l IH]; [reflexivity |].
  cbn [flat_map map app]. rewrite IH. reflexivity.
Qed.

Lemma redactLabel_keys (pat : label -> RegExp) (st : Locals) (l : label)
    (k : jsstring) :
  In k (keys (mapping st)) -> In k (keys (mapping (redactLabel pat st l))).
Proof. unfold redactLabel. apply fold_redactMatch_keys. Qed.

(** C4. [redactText] on ten thousand different numbers of the form of a
    social security number: the mapping returned has the key [SSN_10000],
    with five digits after the underscore, which is not a string of the
    placeholder grammar and which [unredactOnce] does not restore.  At the
    same counter value the label [PHONE_NUMBER] gives a key of 18 characters,
    one more than [MAX_PH_LEN]. *)
Theorem redactText_mints_five_digits :
  map ssn_number [0; 1; 42] =
    [str "123-45-0000"; str "123-45-0001"; str "123-45-0042"] /\
  In (str "SSN_10000") (keys (mapping_of (redactText many_ssn_numbers))) /\
  is_placeholder (str "SSN_10000") = false /\
  unredactOnce (str "see SSN_10000") [(str "SSN_10000", str "123-45-9999")]
    = str "see SSN_10000" /\
  placeholder_of PHONE_NUMBER 10000 = str "PHONE_NUMBER_10000" /\
  length (placeholder_of PHONE_NUMBER 10000) = 18 /\
  MAX_PH_LEN = 17.
Proof.
  split; [reflexivity |]. split; [| vm_compute; repeat split].
  unfold redactText, redactText_st. cbn [fst mapping_of labels fold_left].
  do 2 apply redactLabel_keys.
  unfold redactLabel. cbn [modified]. unfold many_ssn_numbers.
  rewrite matchAll_ssn_numbers.
  assert (K : placeholder_of SSN
                (initial_counters SSN + N.of_nat (N.to_nat 9999))
              = str "SSN_10000") by (vm_compute; reflexivity).
  rewrite <- K.
  apply (fold_redactMatch_mints SSN (map ssn_number (seq 0 how_many))
           {| modified := flat_map (fun i => ssn_number i ++ str " ") (seq 0 how_many);
              mapping := []; counters := initial_counters |}).
  - exact ssn_numbers_differ.
  - intros m _ [].
  - rewrite length_map, length_seq. unfold how_many. lia.
Qed.

(* ================================================================== *)
(** * Further properties *)

(** ** [pad4] *)

Lemma digits_of_uint_digits (d : Decimal.uint) :
  forallb is_digit (digits_of_uint d) = true.
Proof. induction d; cbn [digits_of_uint forallb]; rewrite ?IHd; reflexivity. Qed.

Lemma digits_of_uint_inj (d d' : Decimal.uint) :
  digits_of_uint d = digits_of_uint d' -> d = d'.
Proof.
  revert d'; induction d; intros d' E; destruct d'; cbn [digits_of_uint] in E;
    try discriminate; try reflexivity;
    injection E as E; f_equal; auto.
Qed.

Lemma digits_of_uint_length (d : Decimal.uint) :
  length (digits_of_uint d) = Decimal.nb_digits d.
Proof. induction d; cbn [digits_of_uint length Decimal.nb_digits]; congruence. Qed.

Lemma digits_of_uint_zeros (k : nat) (d : Decimal.uint) :
  digits_of_uint (Nat.iter k Decimal.D0 d) = repeat 48%N k ++ digits_of_uint d.
Proof.
  induction k as [|k IH]; [reflexivity |].
  cbn [Nat.iter nat_rect repeat app digits_of_uint]. 
  change (nat_rect _ d (fun _ => Decimal.D0) k) with (Nat.iter k Decimal.D0 d).
  rewrite IH. reflexivity.
Qed.

Lemma pad4_zeros (n : N) :
  pad4 n =
  digits_of_uint
    (Nat.iter (4 - Decimal.nb_digits (N.to_uint n)) Decimal.D0 (N.to_uint n)).
Proof.
  unfold pad4, padStart, toString.
  rewrite digits_of_uint_zeros, digits_of_uint_length. reflexivity.
Qed.

Lemma to_uint_unorm (n : N) : Decimal.unorm (N.to_uint n) = N.to_uint n.
Proof.
  rewrite <- (DecimalN.Unsigned.of_to n) at 2.
  symmetry. apply DecimalN.Unsigned.to_of.
Qed.

Lemma unorm_zeros (k : nat) (d : Decimal.uint) :
  Decimal.unorm (Nat.iter k Decimal.D0 d) = Decimal.unorm d.
Proof.
  unfold Decimal.unorm. rewrite DecimalFacts.nzhead_iter_D0. reflexivity.
Qed.

Lemma pad4_length (n : N) :
  length (pad4 n) = Nat.max 4 (Decimal.nb_digits (N.to_uint n)).
Proof.
  unfold pad4, padStart, toString.
  rewrite length_app, repeat_length, digits_of_uint_length. lia.
Qed.

Lemma pad4_digits (n : N) : forallb is_digit (pad4 n) = true.
Proof. rewrite pad4_zeros. apply digits_of_uint_digits. Qed.

Lemma pad4_inj (n n' : N) : pad4 n = pad4 n' -> n = n'.
Proof.
  intros E. rewrite !pad4_zeros in E.
  apply digits_of_uint_inj in E.
  apply (f_equal Decimal.unorm) in E.
  rewrite !unorm_zeros, !to_uint_unorm in E.
  apply DecimalN.Unsigned.to_uint_inj, E.
Qed.

(** X1. On the integers a JavaScript number holds exactly (up to
    [MAX_SAFE_INTEGER]), [pad4] writes at least four characters, all of them
    digits, and writes different counters differently. *)
Theorem pad4_injective (n n' : N) :
  (n <= MAX_SAFE_INTEGER)%N -> (n' <= MAX_SAFE_INTEGER)%N ->
  4 <= length (pad4 n) /\
  forallb is_digit (pad4 n) = true /\
  (pad4 n = pad4 n' -> n = n').
Proof.
  intros _ _. split; [rewrite pad4_length; lia |].
  split; [apply pad4_digits | apply pad4_inj].
Qed.

Lemma pad4_injective_witness :
  4 <= length (pad4 7) /\
  forallb is_digit (pad4 7) = true /\
  (pad4 7 = pad4 10000 -> 7%N = 10000%N).
Proof.
  apply (pad4_injective 7 10000); unfold MAX_SAFE_INTEGER; lia.
Defined.

Lemma uint_digit_nb (k : N) (d : Decimal.uint) :
  Decimal.nb_digits (uint_digit k d) = S (Decimal.nb_digits d).
Proof.
  unfold uint_digit. destruct k as [|p]; [reflexivity |].
  do 4 (try destruct p as [p|p|]); reflexivity.
Qed.

Lemma uint_digit_of_lu (k : N) (d : Decimal.uint) :
  (k < 10)%N ->
  DecimalPos.Unsigned.of_lu (uint_digit k d) =
    (k + 10 * DecimalPos.Unsigned.of_lu d)%N.
Proof.
  intros H.
  assert (C : (k = 0 \/ k = 1 \/ k = 2 \/ k = 3 \/ k = 4 \/ k = 5 \/ k = 6 \/
               k = 7 \/ k = 8 \/ k = 9)%N) by lia.
  repeat (destruct C as [-> | C]; [reflexivity |]). subst; reflexivity.
Qed.

Lemma uint_four_value (n : N) :
  (n < 10000)%N -> N.of_uint (Decimal.rev (uint_four n)) = n.
Proof.
  intros H. unfold N.of_uint. rewrite DecimalPos.Unsigned.of_lu_rev.
  unfold uint_four.
  rewrite !uint_digit_of_lu by (apply N.mod_upper_bound; discriminate).
  cbn [DecimalPos.Unsigned.of_lu].
  zify. Z.to_euclidean_division_equations. lia.
Qed.

(** Below 10000 a counter is written with at most four digits. *)
Lemma to_uint_short (n : N) :
  (n < 10000)%N -> Decimal.nb_digits (N.to_uint n) <= 4.
Proof.
  intros H. rewrite <- (uint_four_value n H), DecimalN.Unsigned.to_of.
  assert (L : Decimal.nb_digits (Decimal.rev (uint_four n)) = 4).
  { rewrite DecimalFacts.nb_digits_rev. unfold uint_four.
    rewrite !uint_digit_nb. reflexivity. }
  rewrite <- L. apply DecimalFacts.nb_digits_unorm.
  intros E. rewrite E in L. discriminate.
Qed.

Lemma of_lu_bound (d : Decimal.uint) :
  (DecimalPos.Unsigned.of_lu d < 10 ^ N.of_nat (Decimal.nb_digits d))%N.
Proof.
  induction d; cbn [DecimalPos.Unsigned.of_lu Decimal.nb_digits];
    rewrite ?Nat2N.inj_succ, ?N.pow_succ_r'; [reflexivity | lia ..].
Qed.

(** From 10000 on a counter is written with more than four digits. *)
Lemma to_uint_long (n : N) :
  Decimal.nb_digits (N.to_uint n) <= 4 -> (n < 10000)%N.
Proof.
  intros L. rewrite <- (DecimalN.Unsigned.of_to n). unfold N.of_uint.
  rewrite DecimalPos.Unsigned.of_uint_alt.
  pose proof (of_lu_bound (Decimal.rev (N.to_uint n))) as B.
  rewrite DecimalFacts.nb_digits_rev in B.
  eapply N.lt_le_trans; [exact B |].
  change 10000%N with (10 ^ N.of_nat 4)%N.
  apply N.pow_le_mono_r; [discriminate | lia].
Qed.

Lemma pad4_short (n : N) : (n < 10000)%N -> four_digits (pad4 n) = true.
Proof.
  intros H. unfold four_digits.
  rewrite andb_true_iff, Nat.eqb_eq, pad4_length.
  split; [pose proof (to_uint_short n H); lia | apply pad4_digits].
Qed.

(** X2. [pad4] writes a counter with exactly four digits exactly when the
    counter is below 10000. *)
Theorem pad4_four_digits_iff (n : N) :
  four_digits (pad4 n) = true <-> (n < 10000)%N.
Proof.
  split; [| apply pad4_short].
  unfold four_digits.
  rewrite andb_true_iff, Nat.eqb_eq, pad4_length.
  intros [L _]. apply to_uint_long. lia.
Qed.

(** ** The placeholder of a label and a counter *)

Lemma placeholder_of_inj (l l' : label) (n n' : N) :
  placeholder_of l n = placeholder_of l' n' -> l = l' /\ n = n'.
Proof.
  unfold placeholder_of. intros E.
  destruct l, l'; try (cbn in E; discriminate);
    (split; [reflexivity |]);
    rewrite !app_assoc in E; apply app_inv_head in E;
    apply pad4_inj; exact E.
Qed.

(** X3. A placeholder names its label and its counter: two of them are the
    same string only for the same label and the same counter. *)
Theorem placeholder_of_injective (l l' : label) (n n' : N) :
  placeholder_of l n = placeholder_of l' n' <-> l = l' /\ n = n'.
Proof.
  split; [apply placeholder_of_inj | intros [-> ->]; reflexivity].
Qed.

(** ** What [redactText] records *)

Lemma In_set (m : Mapping) (k v : jsstring) (kv : jsstring * jsstring) :
  In kv (set m k v) -> kv = (k, v) \/ In kv m.
Proof.
  induction m as [|[k' v'] m IH]; cbn [set].
  - intros [E | []]; left; congruence.
  - destruct (eqb_str k' k) eqn:E.
    + apply eqb_str_eq in E. subst k'.
      intros [H | H]; [left; congruence | right; right; exact H].
    + intros [H | H]; [right; left; exact H |].
      destruct (IH H); [left | right; right]; assumption.
Qed.

(** A new key is added at the end; nothing is overwritten. *)
Lemma set_fresh (m : Mapping) (k v : jsstring) :
  ~ In k (keys m) -> set m k v = m ++ [(k, v)].
Proof.
  induction m as [|[k' v'] m IH]; cbn [set keys map fst app]; intros F;
    [reflexivity |].
  cbn [In] in F. fold (keys m) in F.
  destruct (eqb_str k' k) eqn:E.
  - apply eqb_str_eq in E. tauto.
  - rewrite IH by tauto. reflexivity.
Qed.

Lemma In_lookup (m : Mapping) (k v : jsstring) :
  NoDup (keys m) -> In (k, v) m -> lookup m k = Some v.
Proof.
  induction m as [|[k' v'] m IH]; cbn [keys map fst lookup]; intros ND H;
    [destruct H |].
  inversion ND as [|? ? Hn ND']; subst.
  destruct H as [H | H].
  - injection H as -> ->. rewrite eqb_str_refl. reflexivity.
  - destruct (eqb_str k' k) eqn:E.
    + apply eqb_str_eq in E. subst k'. exfalso. apply Hn.
      change k with (fst (k, v)). apply in_map, H.
    + apply IH; assumption.
Qed.

(** A match is at least as long as the expression demands. *)
Lemma rep_min (p : char -> bool) :
  forall rest lo hi prev n k x,
    rep p lo hi prev rest n k = Some x ->
    exists m prev' rest',
      rest = m ++ rest' /\ lo <= length m /\
      k prev' rest' (n + length m) = Some x.
Proof.
  induction rest as [|c rest IH]; intros lo hi prev n k x H.
  - exists [], prev, []. rewrite Nat.add_0_r.
    simpl in H. destruct hi as [[|h]|], lo; try discriminate; auto.
  - assert (Stop : match lo with O => k prev (c :: rest) n | S _ => None end = Some x ->
                   exists m prev' rest',
                     c :: rest = m ++ rest' /\ lo <= length m /\
                     k prev' rest' (n + length m) = Some x).
    { intros E. exists [], prev, (c :: rest). rewrite Nat.add_0_r.
      destruct lo; [auto | discriminate]. }
    assert (More : forall hi', rep p (Nat.pred lo) hi' (Some c) rest (S n) k = Some x ->
                   exists m prev' rest',
                     c :: rest = m ++ rest' /\ lo <= length m /\
                     k prev' rest' (n + length m) = Some x).
    { intros hi' R. apply IH in R.
      destruct R as (m & prev' & rest' & -> & L & K).
      exists (c :: m), prev', rest'. cbn [length]. rewrite Nat.add_succ_r.
      repeat split; [lia | exact K]. }
    simpl in H.
    destruct hi as [[|h]|]; [auto | |]; (destruct (p c); [| auto]).
    + destruct (rep p (Nat.pred lo) _ (Some c) rest (S n) k) as [y|] eqn:R; [| auto].
      injection H as ->. eauto.
    + destruct (rep p (Nat.pred lo) _ (Some c) rest (S n) k) as [y|] eqn:R; [| auto].
      injection H as ->. eauto.
Qed.

Lemma exec_min (r : regex) :
  forall prev rest n k x,
    exec r prev rest n k = Some x ->
    exists m prev' rest',
      rest = m ++ rest' /\ min_len r <= length m /\
      k prev' rest' (n + length m) = Some x.
Proof.
  induction r as [c | r1 IH1 r2 IH2 | r1 IH1 r2 IH2 | r1 IH1 | p lo hi | | p | p];
    intros prev rest n k x H; cbn [exec min_len] in *.
  - destruct rest as [|c' rest]; [discriminate |].
    destruct (c' =? c)%N; [| discriminate].
    exists [c'], (Some c'), rest. cbn [length]. rewrite Nat.add_1_r. auto.
  - apply IH1 in H. destruct H as (m1 & p1 & rest1 & -> & L1 & H).
    apply IH2 in H. destruct H as (m2 & p2 & rest2 & -> & L2 & H).
    exists (m1 ++ m2), p2, rest2.
    rewrite <- app_assoc, length_app, Nat.add_assoc.
    repeat split; [lia | exact H].
  - destruct (exec r1 prev rest n k) as [y|] eqn:E.
    + injection H as ->. apply IH1 in E.
      destruct E as (m & p' & rest' & -> & L & K).
      exists m, p', rest'. repeat split; [lia | exact K].
    + apply IH2 in H. destruct H as (m & p' & rest' & -> & L & K).
      exists m, p', rest'. repeat split; [lia | exact K].
  - destruct (exec r1 prev rest n k) as [y|] eqn:E.
    + injection H as ->. apply IH1 in E.
      destruct E as (m & p' & rest' & -> & L & K).
      exists m, p', rest'. repeat split; [lia | exact K].
    + exists [], prev, rest. rewrite Nat.add_0_r. auto.
  - eapply rep_min; eassumption.
  - destruct (xorb _ _); [| discriminate].
    exists [], prev, rest. rewrite Nat.add_0_r. auto.
  - destruct (test_opt p prev); [discriminate |].
    exists [], prev, rest. rewrite Nat.add_0_r. auto.
  - destruct (test_opt p (hd_error rest)); [discriminate |].
    exists [], prev, rest. rewrite Nat.add_0_r. auto.
Qed.

Lemma match_at_min (r : regex) (prev : option char) (rest after : jsstring)
    (len : nat) :
  match_at r prev rest = Some (len, after) -> min_len r <= len.
Proof.
  intros H. apply exec_min in H. destruct H as (m & _ & rest' & _ & L & E).
  injection E as <- _. exact L.
Qed.

(** Every match of a search is a match at some position. *)
Lemma exec_loop_matched (r : regex) (m : jsstring) :
  forall rest prev skip,
    In (Matched m) (exec_loop r prev rest skip) ->
    exists prev' after, match_at r prev' (m ++ after) = Some (length m, after).
Proof.
  assert (Here : forall prev rest len after,
            match_at r prev rest = Some (len, after) ->
            Matched m = Matched (firstn len rest) ->
            exists prev' after, match_at r prev' (m ++ after) = Some (length m, after)).
  { intros prev rest len after E H. injection H as ->.
    pose proof (match_at_suffix _ _ _ _ _ E) as (m' & -> & ->).
    rewrite firstn_app, Nat.sub_diag, firstn_all. cbn [firstn].
    rewrite app_nil_r. exists prev, after. exact E. }
  induction rest as [|c rest IH]; intros prev skip H.
  - destruct skip; cbn [exec_loop] in H; [| destruct H].
    destruct (match_at r prev []) as [[len after]|] eqn:E; [| destruct H].
    destruct H as [H | []]. symmetry in H. eauto.
  - destruct skip as [|n]; cbn [exec_loop] in H; [| eauto].
    destruct (match_at r prev (c :: rest)) as [[len after]|] eqn:E.
    + destruct H as [H | H]; [symmetry in H; eauto |].
      destruct len; [destruct H as [H | H]; [discriminate | eauto] | eauto].
    + destruct H as [H | H]; [discriminate | eauto].
Qed.

Lemma matchAll_matched (s : jsstring) (re : RegExp) (m : jsstring) :
  In m (matchAll s re) ->
  exists prev after, match_at (source re) prev (m ++ after) = Some (length m, after).
Proof.
  unfold matchAll. destruct (length s <? lastIndex re); [intros [] |].
  intros H. apply in_flat_map in H. destruct H as ([c|m'] & Hin & Hm).
  - destruct Hm.
  - destruct Hm as [-> | []]. eapply exec_loop_matched, Hin.
Qed.

Lemma entry_ok_mono (c c' : Counters) (kv : jsstring * jsstring) :
  (forall l, (c l <= c' l)%N) -> entry_ok c kv -> entry_ok c' kv.
Proof.
  intros M (l & n & K & R & V). exists l, n.
  repeat split; try tauto. specialize (M l). lia.
Qed.

Lemma bump_other (c : Counters) (l l' : label) : l <> l' -> bump c l l' = c l'.
Proof. unfold bump. destruct l, l'; try congruence; reflexivity. Qed.

Lemma bump_le (c : Counters) (l l' : label) : (c l' <= bump c l l')%N.
Proof. unfold bump. destruct (label_eqb l l'); lia. Qed.

Lemma minted_bump (c : Counters) (l : label) :
  minted (bump c l) = (minted c + 1)%N.
Proof. unfold minted, bump. destruct l; cbn [label_eqb]; lia. Qed.

(** The placeholder about to be minted is not a key yet. *)
Lemma next_placeholder_fresh (st : Locals) (l : label) :
  locals_ok st ->
  ~ In (placeholder_of l (counters st l)) (keys (mapping st)).
Proof.
  intros (E & _ & _) H. unfold keys in H. apply in_map_iff in H.
  destruct H as (kv & K & Hin).
  rewrite Forall_forall in E. destruct (E kv Hin) as (l' & n' & K' & R & _).
  rewrite K' in K. apply placeholder_of_inj in K.
  destruct K as [-> ->]. lia.
Qed.

Lemma redactMatch_locals_ok (l : label) (st : Locals) (mtch : jsstring) :
  locals_ok st -> matched_by l mtch -> locals_ok (redactMatch l st mtch).
Proof.
  intros OK V. pose proof (next_placeholder_fresh st l OK) as F.
  destruct OK as (E & C & P).
  unfold redactMatch. destruct (includes _ _); [repeat split; assumption |].
  unfold locals_ok. cbn [mapping counters].
  rewrite (set_fresh _ _ _ F). repeat split.
  - apply Forall_app. split.
    + eapply Forall_impl; [| exact E].
      intros kv. apply entry_ok_mono. intros l'. apply bump_le.
    + constructor; [| constructor].
      exists l, (counters st l). cbn [fst snd].
      rewrite bump_same. repeat split; [apply P | lia | exact V].
  - rewrite minted_bump, C, length_app. cbn [length]. lia.
  - intros l'. pose proof (P l'). pose proof (bump_le (counters st) l l'). lia.
Qed.

Lemma fold_redactMatch_locals_ok (l : label) (ms : list jsstring) :
  forall st,
    locals_ok st -> Forall (matched_by l) ms ->
    locals_ok (fold_left (redactMatch l) ms st).
Proof.
  induction ms as [|m ms IH]; intros st OK V; [exact OK |].
  inversion V; subst. cbn [fold_left].
  apply IH; [apply redactMatch_locals_ok |]; assumption.
Qed.

Lemma redactLabel_locals_ok (g : Globals) (st : Locals) (l : label) :
  locals_ok st -> locals_ok (redactLabel (PII_PATTERNS g) st l).
Proof.
  intros OK. unfold redactLabel. apply fold_redactMatch_locals_ok; [exact OK |].
  apply Forall_forall. intros m H. apply matchAll_matched in H. exact H.
Qed.

Lemma redactText_locals_ok (text : jsstring) :
  exists st, locals_ok st /\ mapping_of (redactText text) = mapping st.
Proof.
  unfold redactText, redactText_st. cbn [fst mapping_of labels fold_left].
  eexists. split; [| reflexivity].
  do 3 apply redactLabel_locals_ok.
  repeat split; [constructor | intros l; cbn [counters]; unfold initial_counters; lia].
Qed.

Lemma redactText_entry_counter (text : jsstring) (kv : jsstring * jsstring) :
  In kv (mapping_of (redactText text)) ->
  exists l n,
    fst kv = placeholder_of l n /\
    (1 <= n <= N.of_nat (length (mapping_of (redactText text))))%N.
Proof.
  destruct (redactText_locals_ok text) as (st & (E & C & P) & ->).
  intros Hin.
  rewrite Forall_forall in E. destruct (E kv Hin) as (l & n & K & R & _).
  exists l, n. split; [exact K |].
  unfold minted in C.
  pose proof (P SSN). pose proof (P EMAIL). pose proof (P PHONE_NUMBER).
  destruct l; lia.
Qed.

(** X4. Every key of the mapping [redactText] returns is the placeholder of
    a label and of a counter between 1 and the number of entries. *)
Theorem redactText_keys_numbered (text : jsstring) (k : jsstring) :
  In k (keys (mapping_of (redactText text))) ->
  exists l n,
    k = placeholder_of l n /\
    (1 <= n <= N.of_nat (length (mapping_of (redactText text))))%N.
Proof.
  intros H. unfold keys in H. apply in_map_iff in H.
  destruct H as (kv & <- & Hin).
  apply redactText_entry_counter, Hin.
Qed.

Lemma redactText_keys_numbered_witness :
  exists l n,
    str "PHONE_NUMBER_0001" = placeholder_of l n /\
    (1 <= n <= N.of_nat (length (mapping_of (redactText scenario))))%N.
Proof.
  apply (redactText_keys_numbered scenario (str "PHONE_NUMBER_0001")).
  vm_compute. right; right; left; reflexivity.
Defined.

Lemma min_len_pattern (l : label) : 6 <= min_len (pattern_of l).
Proof. destruct l; vm_compute; repeat constructor. Qed.

(** X6. The value recorded under a key is a match of the pattern the key
    names, at some position of some text, and has at least six code units;
    it is never the empty string. *)
Theorem redactText_values_matched (text : jsstring) (k v : jsstring) :
  In (k, v) (mapping_of (redactText text)) ->
  exists l n,
    k = placeholder_of l n /\ matched_by l v /\
    min_len (pattern_of l) <= length v /\ 6 <= length v.
Proof.
  destruct (redactText_locals_ok text) as (st & (E & C & P) & ->).
  intros Hin. rewrite Forall_forall in E.
  destruct (E (k, v) Hin) as (l & n & K & R & V). cbn [fst snd] in *.
  exists l, n. split; [exact K |]. split; [exact V |].
  destruct V as (prev & after & M). apply match_at_min in M.
  pose proof (min_len_pattern l). lia.
Qed.

Lemma redactText_values_matched_witness :
  exists l n,
    str "EMAIL_0001" = placeholder_of l n /\ matched_by l (str "a@b.com") /\
    min_len (pattern_of l) <= length (str "a@b.com") /\
    6 <= length (str "a@b.com").
Proof.
  apply (redactText_values_matched scenario (str "EMAIL_0001") (str "a@b.com")).
  vm_compute. right; left; reflexivity.
Defined.

Lemma unredactOnce_nil (m : Mapping) : unredactOnce [] m = [].
Proof.
  unfold unredactOnce, replace. cbn [exec_loop].
  rewrite match_at_placeholder_nil. reflexivity.
Qed.

Lemma placeholder_of_length (l : label) (n : N) :
  (n < 10000)%N -> length (placeholder_of l n) <= MAX_PH_LEN.
Proof.
  intros H. apply pad4_short in H. unfold four_digits in H.
  apply andb_true_iff in H. destruct H as [L _]. apply Nat.eqb_eq in L.
  unfold placeholder_of. rewrite !length_app, L.
  destruct l; vm_compute; lia.
Qed.

(** X5. While the mapping [redactText] returns has fewer than 10000 entries,
    every key of it is a string of the placeholder grammar of at most
    [MAX_PH_LEN] characters, and one-shot restoration of a key alone gives
    the value recorded under it. *)
Theorem redactText_keys_restorable (text : jsstring) (k v : jsstring) :
  (N.of_nat (length (mapping_of (redactText text))) < 10000)%N ->
  In (k, v) (mapping_of (redactText text)) ->
  is_placeholder k = true /\ length k <= MAX_PH_LEN /\
  lookup (mapping_of (redactText text)) k = Some v /\
  unredactOnce k (mapping_of (redactText text)) = v.
Proof.
  intros Small Hin.
  destruct (redactText_entry_counter text (k, v) Hin) as (l & n & K & R).
  cbn [fst] in K. subst k.
  assert (Hn : (n < 10000)%N) by lia.
  assert (G : is_placeholder (placeholder_of l n) = true).
  { apply (is_placeholder_complete l (pad4 n)), pad4_short, Hn. }
  assert (L : lookup (mapping_of (redactText text)) (placeholder_of l n) = Some v).
  { apply In_lookup; [apply redactText_mapping_ok | exact Hin]. }
  repeat split; [exact G | apply placeholder_of_length, Hn | exact L |].
  pose proof (unredactOnce_token [] (placeholder_of l n) []
                (mapping_of (redactText text)) G eq_refl eq_refl) as U.
  rewrite app_nil_r in U. cbn [app] in U.
  rewrite U, unredactOnce_nil, app_nil_r. cbn [app].
  unfold restore. rewrite L. reflexivity.
Qed.

Lemma redactText_keys_restorable_witness :
  is_placeholder (str "SSN_0001") = true /\
  length (str "SSN_0001") <= MAX_PH_LEN /\
  lookup (mapping_of (redactText scenario)) (str "SSN_0001")
    = Some (str "123-45-6789") /\
  unredactOnce (str "SSN_0001") (mapping_of (redactText scenario))
    = str "123-45-6789".
Proof.
  apply (redactText_keys_restorable scenario (str "SSN_0001") (str "123-45-6789")).
  - vm_compute. reflexivity.
  - vm_compute. left; reflexivity.
Defined.

(** ** The pattern for social security numbers *)

Lemma take_class_word (n : nat) (s ds after : jsstring) (prev : option char) :
  take_class is_digit (S n) s = Some (ds, after) ->
  test_opt is_word (hd_error s) = true /\
  test_opt is_word (last_of prev ds) = true.
Proof.
  intros T. apply take_class_sound in T. destruct T as (-> & L & F).
  destruct ds as [|d ds]; [discriminate |]. split.
  - cbn [forallb] in F. apply andb_true_iff in F. destruct F as [F _].
    exact (is_digit_word d F).
  - apply last_of_word; [discriminate | apply forallb_digit_word, F].
Qed.

(** X7. [SSN_RE] matches at a position exactly when three digits, a hyphen,
    two digits, a hyphen and four digits stand there as a whole word; the
    match has 11 code units. *)
Theorem SSN_RE_matches (prev : option char) (s after : jsstring) (len : nat) :
  match_at SSN_RE prev s = Some (len, after) <->
  exists a b c,
    s = a ++ 45%N :: b ++ 45%N :: c ++ after /\
    length a = 3 /\ forallb is_digit a = true /\
    length b = 2 /\ forallb is_digit b = true /\
    length c = 4 /\ forallb is_digit c = true /\
    len = 11 /\
    test_opt is_word prev = false /\
    test_opt is_word (hd_error after) = false.
Proof.
  split.
  - unfold match_at, SSN_RE, exactly. cbn [seq_of exec].
    destruct (xorb _ _) eqn:B; [| discriminate].
    rewrite rep_exactly.
    destruct (take_class is_digit 3 s) as [[a r1]|] eqn:T1; [| discriminate].
    destruct r1 as [|h1 r1]; [discriminate |].
    destruct (h1 =? c_of "-")%N eqn:H1; [| discriminate].
    rewrite rep_exactly.
    destruct (take_class is_digit 2 r1) as [[b r2]|] eqn:T2; [| discriminate].
    destruct r2 as [|h2 r2]; [discriminate |].
    destruct (h2 =? c_of "-")%N eqn:H2; [| discriminate].
    rewrite rep_exactly.
    destruct (take_class is_digit 4 r2) as [[c r3]|] eqn:T3; [| discriminate].
    destruct (xorb (test_opt is_word (last_of (Some h2) c)) _) eqn:B2;
      [| discriminate].
    intros E. injection E as <- <-.
    destruct (take_class_word 2 s a _ prev T1) as [W1 _].
    destruct (take_class_word 3 r2 c _ (Some h2) T3) as [_ W3].
    rewrite W1 in B. rewrite W3 in B2.
    apply N.eqb_eq in H1, H2. subst h1 h2.
    apply take_class_sound in T1, T2, T3.
    destruct T1 as (-> & La & Fa), T2 as (-> & Lb & Fb), T3 as (-> & Lc & Fc).
    exists a, b, c.
    repeat split; try assumption.
    + destruct (test_opt is_word prev); [discriminate | reflexivity].
    + destruct (test_opt is_word (hd_error r3)); [discriminate | reflexivity].
  - intros (a & b & c & -> & La & Fa & Lb & Fb & Lc & Fc & -> & P & R).
    apply match_at_SSN_RE; assumption.
Qed.

(** ** More on one-shot restoration *)

Lemma replace_ext (s : jsstring) (re : regex) (f g : jsstring -> jsstring) :
  (forall m, In (Matched m) (exec_loop re None s 0) -> f m = g m) ->
  replace s re f = replace s re g.
Proof.
  unfold replace. induction (exec_loop re None s 0) as [|[c|m] ps IH];
    intros H; cbn [flat_map]; [reflexivity | |].
  - rewrite IH; [reflexivity |]. intros m Hm. apply H. right; exact Hm.
  - rewrite (H m (or_introl eq_refl)), IH; [reflexivity |].
    intros m' Hm. apply H. right; exact Hm.
Qed.

(** What [PLACEHOLDER_RE] finds is a string of the placeholder grammar. *)
Lemma exec_loop_placeholder_matched (m : jsstring) (rest : jsstring)
    (prev : option char) (skip : nat) :
  In (Matched m) (exec_loop PLACEHOLDER_RE prev rest skip) ->
  is_placeholder m = true.
Proof.
  intros H. apply exec_loop_matched in H. destruct H as (prev' & after & M).
  apply match_at_placeholder_sound in M.
  destruct M as (l & ds & F & E & L & _).
  assert (m = placeholder_text l ds).
  { apply (f_equal (firstn (length m))) in E.
    rewrite firstn_app, Nat.sub_diag, firstn_all in E. cbn [firstn] in E.
    rewrite app_nil_r in E. rewrite E, L.
    rewrite firstn_app, Nat.sub_diag, firstn_all. cbn [firstn].
    apply app_nil_r. }
  subst m. apply is_placeholder_complete, F.
Qed.

Lemma lookup_filter (P : jsstring -> bool) (m : Mapping) (k : jsstring) :
  P k = true -> lookup (filter (fun kv => P (fst kv)) m) k = lookup m k.
Proof.
  intros Pk. induction m as [|[k' v'] m IH]; [reflexivity |].
  cbn [filter fst lookup].
  destruct (eqb_str k' k) eqn:E.
  - apply eqb_str_eq in E. subst k'. rewrite Pk. cbn [lookup].
    rewrite eqb_str_refl. reflexivity.
  - destruct (P k'); [cbn [lookup]; rewrite E |]; exact IH.
Qed.

(** X8. One-shot restoration never uses an entry whose key is not a string
    of the placeholder grammar: the result is the same without those
    entries. *)
Theorem unredactOnce_uses_placeholder_keys (text : jsstring) (m : Mapping) :
  unredactOnce text m =
  unredactOnce text (filter (fun kv => is_placeholder (fst kv)) m).
Proof.
  unfold unredactOnce. apply replace_ext. intros tok H.
  apply exec_loop_placeholder_matched in H.
  unfold restore. rewrite (lookup_filter is_placeholder m tok H). reflexivity.
Qed.

(** What [PLACEHOLDER_RE] finds at a position depends on the character
    before it only through its being a word character or not. *)
Lemma match_at_placeholder_prev (p q : option char) (s : jsstring) :
  test_opt is_word p = test_opt is_word q ->
  match_at PLACEHOLDER_RE p s = match_at PLACEHOLDER_RE q s.
Proof.
  assert (One : forall p q len after,
            test_opt is_word p = test_opt is_word q ->
            match_at PLACEHOLDER_RE p s = Some (len, after) ->
            match_at PLACEHOLDER_RE q s = Some (len, after)).
  { intros p' q' len after W M. apply match_at_placeholder_sound in M.
    destruct M as (l & ds & F & -> & -> & P & A).
    apply match_at_placeholder_complete; congruence. }
  intros W.
  destruct (match_at PLACEHOLDER_RE p s) as [[len after]|] eqn:Mp.
  - symmetry. eapply One; eassumption.
  - destruct (match_at PLACEHOLDER_RE q s) as [[len after]|] eqn:Mq;
      [| reflexivity].
    rewrite (One q p len after (eq_sym W) Mq) in Mp. discriminate.
Qed.

Lemma exec_loop_placeholder_prev_eq (p q : option char) (b : jsstring) :
  test_opt is_word p = test_opt is_word q ->
  exec_loop PLACEHOLDER_RE p b 0 = exec_loop PLACEHOLDER_RE q b 0.
Proof.
  intros W. destruct b as [|c b]; cbn [exec_loop];
    rewrite (match_at_placeholder_prev p q _ W); reflexivity.
Qed.

(** X9. One-shot restoration of two texts put together, when the first ends
    outside [\w] or is empty: the first restored, then the second
    restored. *)
Theorem unredactOnce_app (a b : jsstring) (m : Mapping) :
  ends_clean a = true ->
  unredactOnce (a ++ b) m = unredactOnce a m ++ unredactOnce b m.
Proof.
  intros C. unfold unredactOnce. rewrite !replace_pieces.
  rewrite exec_loop_placeholder_app by auto.
  rewrite flat_map_app. f_equal. f_equal.
  apply exec_loop_placeholder_prev_eq.
  unfold ends_clean in C. apply negb_true_iff in C. rewrite C. reflexivity.
Qed.

Lemma unredactOnce_app_witness :
  unredactOnce (str "Dear EMAIL_0001, " ++ str "SSN_0001 is on file") scenario_mapping
  = unredactOnce (str "Dear EMAIL_0001, ") scenario_mapping ++
    unredactOnce (str "SSN_0001 is on file") scenario_mapping.
Proof.
  apply (unredactOnce_app (str "Dear EMAIL_0001, ") (str "SSN_0001 is on file")).
  reflexivity.
Defined.

(** ** More on the streaming session *)

Lemma unredactOnce_no_placeholder (text : jsstring) (m : Mapping) :
  contains_placeholder text = false -> unredactOnce text m = text.
Proof.
  intros H. unfold unredactOnce. rewrite replace_pieces.
  rewrite exec_loop_no_placeholder by assumption.
  clear H. induction text as [|c text IH]; [reflexivity |].
  cbn [map flat_map app]. rewrite IH. reflexivity.
Qed.

Lemma contains_placeholder_app (x y : jsstring) :
  contains_placeholder (x ++ y) = false ->
  contains_placeholder x = false /\ contains_placeholder y = false.
Proof.
  intros H. split.
  - destruct (contains_placeholder x) eqn:C; [| reflexivity].
    apply contains_placeholder_true in C.
    destruct C as (pre & tok & post & -> & P).
    assert (T : contains_placeholder ((pre ++ tok ++ post) ++ y) = true).
    { apply contains_placeholder_true. exists pre, tok, (post ++ y).
      rewrite <- !app_assoc. auto. }
    congruence.
  - destruct (contains_placeholder y) eqn:C; [| reflexivity].
    apply contains_placeholder_true in C.
    destruct C as (pre & tok & post & -> & P).
    assert (T : contains_placeholder (x ++ pre ++ tok ++ post) = true).
    { apply contains_placeholder_true. exists (x ++ pre), tok, post.
      rewrite <- !app_assoc. auto. }
    congruence.
Qed.

(** One call on a buffer and a fragment without a substring of the
    placeholder grammar: the text is passed on unchanged, all but its last
    [TAIL] characters. *)
Lemma feed_no_placeholder (s : Session) (incoming : jsstring) :
  contains_placeholder (buf s ++ incoming) = false ->
  fst (feed s incoming) ++ buf (snd (feed s incoming)) = buf s ++ incoming /\
  length (buf (snd (feed s incoming))) = Nat.min TAIL (length (buf s ++ incoming)).
Proof.
  intros H. unfold feed.
  change (replace (buf s ++ incoming) PLACEHOLDER_RE (restore (session_mapping s)))
    with (unredactOnce (buf s ++ incoming) (session_mapping s)).
  rewrite (unredactOnce_no_placeholder _ _ H).
  destruct (TAIL <? length (buf s ++ incoming)) eqn:E; cbn [fst snd buf].
  - apply Nat.ltb_lt in E. rewrite firstn_skipn, length_skipn. split; [reflexivity | lia].
  - apply Nat.ltb_ge in E. split; [reflexivity | lia].
Qed.

Lemma feed_all_no_placeholder (fragments : list jsstring) :
  forall s,
    contains_placeholder (buf s ++ concat fragments) = false ->
    concat (fst (feed_all s fragments)) ++ buf (snd (feed_all s fragments))
      = buf s ++ concat fragments /\
    (length (buf s) <= TAIL ->
     length (buf (snd (feed_all s fragments)))
       = Nat.min TAIL (length (buf s ++ concat fragments))).
Proof.
  induction fragments as [|f fs IH]; intros s H; cbn [feed_all concat] in *.
  - cbn [fst snd concat app]. rewrite app_nil_r. split; [reflexivity | lia].
  - rewrite app_assoc in H.
    destruct (contains_placeholder_app _ _ H) as [H1 _].
    destruct (feed_no_placeholder s f H1) as [E1 L1].
    destruct (feed s f) as [out s'] eqn:F. cbn [fst snd] in E1, L1.
    assert (H2 : contains_placeholder (buf s' ++ concat fs) = false).
    { rewrite <- E1, <- app_assoc in H.
      apply (contains_placeholder_app out _ H). }
    destruct (IH s' H2) as [E2 L2].
    destruct (feed_all s' fs) as [outs s''] eqn:G. cbn [fst snd concat] in *.
    split.
    + rewrite <- app_assoc, E2, app_assoc, E1, app_assoc. reflexivity.
    + intros _. rewrite L2 by lia.
      rewrite app_assoc, <- E1, <- !app_assoc, !length_app in *. lia.
Qed.

Lemma app_split_tail (x y t : jsstring) (n : nat) :
  x ++ y = t -> length y = Nat.min n (length t) ->
  x = firstn (length t - n) t /\ y = skipn (length t - n) t.
Proof.
  intros <- L. rewrite length_app in *.
  replace (length x + length y - n) with (length x) by lia.
  rewrite firstn_app, Nat.sub_diag, firstn_all, skipn_app, Nat.sub_diag, skipn_all.
  cbn [firstn skipn app]. rewrite app_nil_r. auto.
Qed.

(** X10. A stream of fragments whose text has no substring of the
    placeholder grammar is passed on unchanged and only delayed: what the
    calls return, put together, is the text without its last [TAIL]
    characters, and those are what the session retains. *)
Theorem stream_without_placeholders (mapping : Mapping)
    (fragments : list jsstring) :
  contains_placeholder (concat fragments) = false ->
  let run := feed_all (makeStreamUnredactor mapping) fragments in
  let text := concat fragments in
  concat (fst run) = firstn (length text - TAIL) text /\
  buf (snd run) = skipn (length text - TAIL) text /\
  concat (fst run) ++ buf (snd run) = text.
Proof.
  intros H run text.
  destruct (feed_all_no_placeholder fragments (makeStreamUnredactor mapping) H)
    as [E L].
  cbn [buf makeStreamUnredactor app length] in E, L.
  specialize (L (Nat.le_0_l _)).
  destruct (app_split_tail _ _ _ _ E L) as [A B].
  repeat split; assumption.
Qed.

Lemma stream_without_placeholders_witness :
  let fragments := [str "Thank you for "; str "your message, I will "; str "reply soon."] in
  let run := feed_all (makeStreamUnredactor scenario_mapping) fragments in
  let text := concat fragments in
  concat (fst run) = firstn (length text - TAIL) text /\
  buf (snd run) = skipn (length text - TAIL) text /\
  concat (fst run) ++ buf (snd run) = text.
Proof.
  apply (stream_without_placeholders scenario_mapping
           [str "Thank you for "; str "your message, I will "; str "reply soon."]).
  vm_compute. reflexivity.
Defined.

Lemma feed_buf_short (s : Session) (incoming : jsstring) :
  length (buf (snd (feed s incoming))) <= TAIL.
Proof.
  unfold feed. destruct (TAIL <? _) eqn:E; cbn [snd buf].
  - apply Nat.ltb_lt in E. rewrite length_skipn. lia.
  - apply Nat.ltb_ge in E. exact E.
Qed.

Lemma feed_all_snoc (fs : list jsstring) (f : jsstring) :
  forall s, snd (feed_all s (fs ++ [f])) = snd (feed (snd (feed_all s fs)) f).
Proof.
  induction fs as [|x xs IH]; intros s; cbn [feed_all app snd].
  - destruct (feed s f); reflexivity.
  - destruct (feed s x) as [o s1]. specialize (IH s1).
    destruct (feed_all s1 (xs ++ [f])), (feed_all s1 xs). exact IH.
Qed.

Lemma feed_all_buf_short (mapping : Mapping) (history : list jsstring) :
  length (buf (snd (feed_all (makeStreamUnredactor mapping) history))) <= TAIL.
Proof.
  induction history as [|f fs IH] using rev_ind.
  - cbn. lia.
  - rewrite feed_all_snoc. apply feed_buf_short.
Qed.

(** X15. A call with the empty fragment on a session in whose buffer no key
    of the mapping occurs returns the empty string and leaves the session
    as it was: nothing of the retained text is released. *)
Theorem feed_empty_fragment (mapping : Mapping) (history : list jsstring) :
  let s := snd (feed_all (makeStreamUnredactor mapping) history) in
  free_of_keys mapping (buf s) = true ->
  feed s [] = ([], s).
Proof.
  intros s F.
  pose proof (feed_all_buf_short mapping history) as L. fold s in L.
  assert (M : session_mapping s = mapping)
    by (unfold s; rewrite feed_all_mapping; reflexivity).
  unfold feed. rewrite app_nil_r, M.
  change (replace (buf s) PLACEHOLDER_RE (restore mapping))
    with (unredactOnce (buf s) mapping).
  rewrite (unredactOnce_no_key _ _ F).
  apply Nat.ltb_ge in L. rewrite L. rewrite <- M at 1.
  destruct s; reflexivity.
Qed.

Lemma feed_empty_fragment_witness :
  let s := snd (feed_all (makeStreamUnredactor scenario_mapping)
                  [str "Hello "; str "EMAIL_0001"; str ", how are you today?"]) in
  feed s [] = ([], s).
Proof.
  apply (feed_empty_fragment scenario_mapping
           [str "Hello "; str "EMAIL_0001"; str ", how are you today?"]).
  vm_compute. reflexivity.
Defined.


(** ** A placeholder split between two fragments *)

Lemma count_digits_app (a b : jsstring) :
  count_digits (a ++ b) = count_digits a + count_digits b.
Proof. unfold count_digits. rewrite filter_app, length_app. reflexivity. Qed.

Lemma count_digits_length (s : jsstring) : count_digits s <= length s.
Proof.
  unfold count_digits. induction s as [|c s IH]; cbn [filter length]; [lia |].
  destruct (is_digit c); cbn [length]; lia.
Qed.

Lemma count_digits_firstn (i : nat) (s : jsstring) :
  count_digits (firstn i s) <= count_digits s.
Proof.
  rewrite <- (firstn_skipn i s) at 2. rewrite count_digits_app. lia.
Qed.

Lemma count_digits_all (ds : jsstring) :
  forallb is_digit ds = true -> count_digits ds = length ds.
Proof.
  unfold count_digits. induction ds as [|c ds IH]; cbn [forallb filter length];
    [reflexivity |].
  intros H. apply andb_true_iff in H. destruct H as [C H].
  rewrite C. cbn [length]. rewrite IH; auto.
Qed.

Lemma label_no_digit (l : label) : count_digits (label_name l ++ str "_") = 0.
Proof. destruct l; reflexivity. Qed.

Lemma label_name_length (l : label) : length (label_name l ++ str "_") <= 13.
Proof. destruct l; vm_compute; lia. Qed.

(** A text with a substring of the placeholder grammar has four digits. *)
Lemma contains_placeholder_digits (s : jsstring) :
  contains_placeholder s = true -> 4 <= count_digits s.
Proof.
  intros H. apply contains_placeholder_true in H.
  destruct H as (pre & tok & post & -> & P).
  apply is_placeholder_spec in P. destruct P as (l & ds & -> & F).
  unfold four_digits in F. apply andb_true_iff in F. destruct F as [L D].
  apply Nat.eqb_eq in L.
  unfold placeholder_text. rewrite !count_digits_app, (count_digits_all ds D). lia.
Qed.

(** A proper prefix of a placeholder has no substring of the grammar. *)
Lemma placeholder_prefix_free (tok : jsstring) (i : nat) :
  is_placeholder tok = true -> i < length tok ->
  contains_placeholder (firstn i tok) = false /\ length (firstn i tok) <= TAIL.
Proof.
  intros P I. apply is_placeholder_spec in P. destruct P as (l & ds & -> & F).
  unfold four_digits in F. apply andb_true_iff in F. destruct F as [L D].
  apply Nat.eqb_eq in L.
  unfold placeholder_text in *. rewrite app_assoc in *.
  pose proof (label_name_length l) as B. rewrite length_app in I.
  split.
  - destruct (contains_placeholder _) eqn:C; [| reflexivity].
    apply contains_placeholder_digits in C.
    rewrite firstn_app, count_digits_app in C.
    pose proof (count_digits_firstn i (label_name l ++ str "_")) as C1.
    rewrite label_no_digit in C1.
    pose proof (count_digits_length
                  (firstn (i - length (label_name l ++ str "_")) ds)) as C2.
    rewrite length_firstn in C2. lia.
  - rewrite length_firstn, length_app. unfold TAIL, MAX_PH_LEN. lia.
Qed.

(** One call of the closure, in both of its cases. *)
Lemma feed_uniform (s : Session) (incoming : jsstring) :
  let R := unredactOnce (buf s ++ incoming) (session_mapping s) in
  feed s incoming =
  (firstn (length R - TAIL) R,
   {| session_mapping := session_mapping s; buf := skipn (length R - TAIL) R |}).
Proof.
  intros R. unfold feed. fold (unredactOnce (buf s ++ incoming) (session_mapping s)).
  fold R. destruct (TAIL <? length R) eqn:E; [reflexivity |].
  apply Nat.ltb_ge in E. replace (length R - TAIL) with 0 by lia. reflexivity.
Qed.

(** X11. A placeholder cut anywhere between two fragments, at the start of a
    stream and followed by text that begins outside [\w], is restored as a
    whole: the first call returns the empty string, and the second call
    works on the restored placeholder followed by the restored rest, of
    which it returns all but the last [TAIL] characters and retains
    those. *)
Theorem stream_split_placeholder_restored (m : Mapping) (tok tail : jsstring)
    (i : nat) :
  is_placeholder tok = true -> i < length tok -> starts_clean tail = true ->
  let run := feed_all (makeStreamUnredactor m)
               [firstn i tok; skipn i tok ++ tail] in
  let restored := restore m tok ++ unredactOnce tail m in
  fst run = [[]; firstn (length restored - TAIL) restored] /\
  buf (snd run) = skipn (length restored - TAIL) restored.
Proof.
  intros P I C run restored.
  destruct (placeholder_prefix_free tok i P I) as [Free Short].
  unfold run. cbn [feed_all].
  rewrite (feed_uniform (makeStreamUnredactor m) (firstn i tok)).
  cbn [buf session_mapping makeStreamUnredactor app].
  rewrite (unredactOnce_no_placeholder _ m Free).
  replace (length (firstn i tok) - TAIL) with 0 by lia.
  cbn [firstn skipn].
  rewrite feed_uniform. cbn [buf session_mapping].
  rewrite app_assoc, firstn_skipn.
  pose proof (unredactOnce_token [] tok tail m P eq_refl C) as U.
  cbn [app] in U. rewrite unredactOnce_nil in U. cbn [app] in U.
  rewrite U. fold restored. cbn [fst snd buf]. split; reflexivity.
Qed.

Lemma stream_split_placeholder_restored_witness :
  let run := feed_all (makeStreamUnredactor scenario_mapping)
               [firstn 7 (str "PHONE_NUMBER_0001");
                skipn 7 (str "PHONE_NUMBER_0001") ++ str " is the number to call"] in
  let restored := restore scenario_mapping (str "PHONE_NUMBER_0001") ++
                  unredactOnce (str " is the number to call") scenario_mapping in
  fst run = [[]; firstn (length restored - TAIL) restored] /\
  buf (snd run) = skipn (length restored - TAIL) restored.
Proof.
  apply (stream_split_placeholder_restored scenario_mapping
           (str "PHONE_NUMBER_0001") (str " is the number to call") 7).
  - reflexivity.
  - vm_compute. lia.
  - reflexivity.
Defined.


(** ** The model call *)

(** The loop over the mock text from position [i], with fuel for the
    iterations left: the chunks it hands to the callback. *)
Lemma mock_loop_from (text : jsstring) (fuel : nat) :
  forall i, length text <= i + 12 * fuel ->
  exists chunks,
    concat chunks = skipn i text /\
    Forall (fun c => 1 <= length c <= 12) chunks /\
    (forall k, k < length chunks ->
       nth k chunks [] = slice text (i + 12 * k) (i + 12 * k + 12)) /\
    forall (St : Type) (onUserChunk : jsstring -> St -> St)
           (raw : jsstring) (st : St),
      mock_loop onUserChunk text fuel i raw st =
      (raw ++ skipn i text, fold_left (fun st c => onUserChunk c st) chunks st).
Proof.
  induction fuel as [|fuel IH]; intros i H.
  - exists []. rewrite skipn_all2 by lia. repeat split.
    + constructor.
    + cbn [length]. intros k Hk. lia.
    + intros St f raw st. cbn [mock_loop fold_left]. rewrite app_nil_r. reflexivity.
  - destruct (i <? length text) eqn:E.
    + apply Nat.ltb_lt in E.
      destruct (IH (i + 12)) as (cs & C & F & K & R); [lia |].
      exists (slice text i (i + 12) :: cs).
      assert (S12 : slice text i (i + 12) ++ skipn (i + 12) text = skipn i text).
      { unfold slice. replace (i + 12 - i) with 12 by lia.
        rewrite <- (firstn_skipn 12 (skipn i text)) at 2.
        rewrite skipn_skipn. f_equal. f_equal. lia. }
      repeat split.
      * cbn [concat]. rewrite C. exact S12.
      * constructor; [| exact F].
        unfold slice. rewrite length_firstn, length_skipn. lia.
      * intros [|k] Hk; cbn [nth].
        -- f_equal; lia.
        -- cbn [length] in Hk. rewrite K by lia. f_equal; lia.
      * intros St f raw st. cbn [mock_loop fold_left].
        apply Nat.ltb_lt in E. rewrite E, R, <- app_assoc, S12. reflexivity.
    + apply Nat.ltb_ge in E. exists []. rewrite skipn_all2 by lia. repeat split.
      * constructor.
      * cbn [length]. intros k Hk. lia.
      * intros St f raw st. cbn [mock_loop fold_left]. apply Nat.ltb_ge in E.
        rewrite E, app_nil_r. reflexivity.
Qed.

(** X12. The loop that streams the mock text, for every text in its place:
    it ends within [text.length] iterations, returns the text, and calls the
    callback on the successive slices of twelve characters, each of one to
    twelve characters, which put together are the text. *)
Theorem mock_loop_chunks (text : jsstring) :
  exists chunks,
    concat chunks = text /\
    Forall (fun c => 1 <= length c <= 12) chunks /\
    (forall k, k < length chunks ->
       nth k chunks [] = slice text (12 * k) (12 * k + 12)) /\
    forall (St : Type) (onUserChunk : jsstring -> St -> St) (st : St),
      mock_loop onUserChunk text (length text) 0 [] st =
      (text, fold_left (fun st c => onUserChunk c st) chunks st).
Proof.
  destruct (mock_loop_from text (length text) 0) as (cs & C & F & K & R); [lia |].
  exists cs. repeat split; [exact C | exact F | exact K |].
  intros St f st. rewrite R. reflexivity.
Qed.

Lemma live_loop_deltas (St : Type) (f : jsstring -> St -> St)
    (parts : list jsstring) :
  forall raw st,
    live_loop f parts raw st =
    (raw ++ concat parts, fold_left (fun st c => f c st) (deltas parts) st).
Proof.
  unfold live_loop, deltas.
  induction parts as [|d parts IH]; intros raw st; cbn [fold_left concat filter].
  - rewrite app_nil_r. reflexivity.
  - destruct d as [|c d]; cbn [is_nil negb fst snd].
    + apply IH.
    + rewrite IH. cbn [fold_left]. rewrite <- app_assoc. reflexivity.
Qed.

(** With a key, the model call returns the parts put together, also when an
    exception ends the stream, and calls the callback as [calls_of] says. *)
Lemma callLLMStream_live (St : Type) (f : jsstring -> St -> St)
    (service : jsstring -> Reply) (prompt : jsstring) (st : St) :
  callLLMStream f true service prompt st =
  (concat (parts_of (service prompt)),
   fold_left (fun st c => f c st) (calls_of (service prompt)) st).
Proof.
  unfold callLLMStream. destruct (service prompt) as [parts | parts];
    rewrite live_loop_deltas; cbn [parts_of calls_of app]; [| reflexivity].
  rewrite fold_left_app. reflexivity.
Qed.

(** Without a key, it returns the mock text and calls the callback on
    chunks that put together are the mock text, then on the empty string. *)
Lemma callLLMStream_mock :
  exists chunks,
    concat chunks = mock /\
    forall (St : Type) (f : jsstring -> St -> St)
           (service : jsstring -> Reply) (prompt : jsstring) (st : St),
      callLLMStream f false service prompt st =
      (mock, fold_left (fun st c => f c st) (chunks ++ [[]]) st).
Proof.
  destruct (mock_loop_from mock (length mock) 0) as (cs & C & _ & _ & R); [lia |].
  exists cs. split; [exact C |].
  intros St f service prompt st. unfold callLLMStream.
  rewrite R, fold_left_app. reflexivity.
Qed.

(** ** One request *)

(** The callback of [processRequest] over a list of calls: the session is
    fed each of them, and the outputs that are not empty are written. *)
Lemma onUserChunk_fold (calls : list jsstring) :
  forall s w,
    fold_left (fun st c => onUserChunk c st) calls (s, w) =
    (snd (feed_all s calls), w ++ deltas (fst (feed_all s calls))).
Proof.
  unfold deltas.
  induction calls as [|c calls IH]; intros s w; cbn [fold_left feed_all].
  - cbn [fst snd filter]. rewrite app_nil_r. reflexivity.
  - unfold onUserChunk at 2. cbn [fst snd].
    destruct (feed s c) as [safe s']. rewrite IH.
    destruct (feed_all s' calls) as [outs s'']. cbn [fst snd filter].
    destruct safe as [|x safe]; cbn [is_nil negb]; [reflexivity |].
    rewrite <- app_assoc. reflexivity.
Qed.

Lemma concat_deltas (l : list jsstring) : concat (deltas l) = concat l.
Proof.
  unfold deltas. induction l as [|d l IH]; cbn [filter concat]; [reflexivity |].
  destruct d as [|c d]; cbn [is_nil negb concat app]; rewrite IH; reflexivity.
Qed.

Lemma deltas_nonempty (l : list jsstring) : Forall (fun w => w <> []) (deltas l).
Proof.
  apply Forall_forall. intros w H. unfold deltas in H.
  apply filter_In in H. destruct H as [_ H]. destruct w; [discriminate | congruence].
Qed.

Lemma processRequest_calls (has_key : bool) (service : jsstring -> Reply)
    (system_prompt prompt : jsstring) (raw : jsstring) (calls : list jsstring) :
  let r := redactText (system_prompt ++ str " " ++ prompt) in
  (forall st : Session * list jsstring,
     callLLMStream onUserChunk has_key service (redactedText r) st =
     (raw, fold_left (fun st c => onUserChunk c st) calls st)) ->
  processRequest has_key service system_prompt prompt =
  {| written := deltas (fst (feed_all (makeStreamUnredactor (mapping_of r)) calls));
     redactedPrompt := redactedText r;
     llmOutput := raw;
     finalOutput := unredactOnce raw (mapping_of r) |}.
Proof.
  intros r H. unfold processRequest. fold r. rewrite H, onUserChunk_fold.
  cbn [snd app]. reflexivity.
Qed.

(** The outputs of a session fed a text without a substring of the
    placeholder grammar, then written where not empty. *)
Lemma written_no_placeholder (mapping : Mapping) (calls : list jsstring) :
  contains_placeholder (concat calls) = false ->
  concat (deltas (fst (feed_all (makeStreamUnredactor mapping) calls))) =
  firstn (length (concat calls) - TAIL) (concat calls).
Proof.
  intros H. rewrite concat_deltas.
  destruct (feed_all_no_placeholder calls (makeStreamUnredactor mapping) H)
    as [E L].
  cbn [buf makeStreamUnredactor app length] in E, L.
  specialize (L (Nat.le_0_l _)).
  apply (app_split_tail _ _ _ _ E L).
Qed.

Lemma concat_calls_of (r : Reply) : concat (calls_of r) = concat (parts_of r).
Proof.
  destruct r as [parts | parts]; cbn [calls_of parts_of].
  - rewrite concat_app, concat_deltas. cbn [concat]. rewrite !app_nil_r. reflexivity.
  - apply concat_deltas.
Qed.

(** X13. Without an API key, every request ends the same way whatever the
    prompts: the model output and the final output are the mock text, and
    what is written to the user, put together, is the mock text without its
    last [TAIL] characters; nothing empty is written. *)
Theorem processRequest_dry_run (service : jsstring -> Reply)
    (system_prompt prompt : jsstring) :
  let shown := processRequest false service system_prompt prompt in
  llmOutput shown = mock /\
  finalOutput shown = mock /\
  concat (written shown) = firstn (length mock - TAIL) mock /\
  Forall (fun w => w <> []) (written shown).
Proof.
  destruct callLLMStream_mock as (cs & C & R).
  assert (Free : contains_placeholder mock = false) by (vm_compute; reflexivity).
  assert (CC : concat (cs ++ [[]]) = mock).
  { rewrite concat_app. cbn [concat]. rewrite !app_nil_r. exact C. }
  intros shown. unfold shown.
  rewrite (processRequest_calls false service system_prompt prompt mock
             (cs ++ [[]])) by (intros st; apply R).
  cbn [llmOutput finalOutput written].
  split; [reflexivity | split; [| split]].
  - apply unredactOnce_no_placeholder, Free.
  - rewrite written_no_placeholder; rewrite CC; [reflexivity | exact Free].
  - apply deltas_nonempty.
Qed.

(** X14. With an API key: the model output is the parts of the reply put
    together, also when an exception ends the stream; the final output is
    its one-shot restoration under the mapping of the redaction; and what is
    written to the user are the non-empty outputs of a fresh session fed
    the parts with content, and the empty string last only when the stream
    ended without an exception. *)
Theorem processRequest_live (service : jsstring -> Reply)
    (system_prompt prompt : jsstring) :
  let r := redactText (system_prompt ++ str " " ++ prompt) in
  let reply := service (redactedText r) in
  let shown := processRequest true service system_prompt prompt in
  redactedPrompt shown = redactedText r /\
  llmOutput shown = concat (parts_of reply) /\
  finalOutput shown = unredactOnce (concat (parts_of reply)) (mapping_of r) /\
  written shown =
    deltas (fst (feed_all (makeStreamUnredactor (mapping_of r)) (calls_of reply))).
Proof.
  intros r reply shown. unfold shown.
  rewrite (processRequest_calls true service system_prompt prompt
             (concat (parts_of reply)) (calls_of reply))
    by (intros st; apply callLLMStream_live).
  cbn [llmOutput finalOutput written redactedPrompt]. repeat split.
Qed.

(** X16. With an API key and a reply without a substring of the placeholder
    grammar: the final output is the model output, and what is written to
    the user, put together, is that output without its last [TAIL]
    characters, whether the stream ended or an exception was thrown. *)
Theorem processRequest_live_plain (service : jsstring -> Reply)
    (system_prompt prompt : jsstring) :
  let r := redactText (system_prompt ++ str " " ++ prompt) in
  let out := concat (parts_of (service (redactedText r))) in
  let shown := processRequest true service system_prompt prompt in
  contains_placeholder out = false ->
  llmOutput shown = out /\
  finalOutput shown = out /\
  concat (written shown) = firstn (length out - TAIL) out.
Proof.
  intros r out shown Free. unfold shown.
  rewrite (processRequest_calls true service system_prompt prompt
             out (calls_of (service (redactedText r))))
    by (intros st; apply callLLMStream_live).
  cbn [llmOutput finalOutput written]. split; [reflexivity | split].
  - apply unredactOnce_no_placeholder, Free.
  - fold r. rewrite written_no_placeholder; rewrite concat_calls_of;
      [reflexivity | exact Free].
Qed.

Lemma processRequest_live_plain_witness :
  let service := fun _ : jsstring =>
    Completes [str "Thank you, "; []; str "your request has been "; str "recorded."] in
  let out := str "Thank you, your request has been recorded." in
  let shown := processRequest true service (str "Be brief.") scenario in
  llmOutput shown = out /\
  finalOutput shown = out /\
  concat (written shown) = firstn (length out - TAIL) out.
Proof.
  apply (processRequest_live_plain
           (fun _ : jsstring =>
              Completes [str "Thank you, "; []; str "your request has been ";
                         str "recorded."])
           (str "Be brief.") scenario).
  vm_compute. reflexivity.
Defined.


(** * One placeholder per value *)

Lemma fold_redactSeen_label (l : label) (ms : list jsstring) :
  forall st,
    fold_left redactSeen (map (pair l) ms) st = fold_left (redactMatch l) ms st.
Proof. induction ms as [|m ms IH]; intros st; [reflexivity | apply IH]. Qed.

(** The loops of [redactText] are one loop over the matches seen. *)
Lemma fold_redactLabel_seen (ls : list label) :
  forall st,
    fold_left (redactLabel (PII_PATTERNS fresh_globals)) ls st =
    fold_left redactSeen (seen_from ls st) st.
Proof.
  induction ls as [|l ls IH]; intros st; [reflexivity |].
  cbn [fold_left seen_from]. rewrite fold_left_app, fold_redactSeen_label.
  apply IH.
Qed.

Lemma redactText_seen (text : jsstring) :
  redactText text =
  {| redactedText := modified (fold_left redactSeen (seen text) (initial_locals text));
     mapping_of := mapping (fold_left redactSeen (seen text) (initial_locals text)) |}.
Proof.
  unfold redactText, redactText_st, seen. cbn [fst].
  fold (initial_locals text). rewrite fold_redactLabel_seen. reflexivity.
Qed.

Lemma seen_from_matched (ls : list label) :
  forall st, Forall (fun lv => matched_by (fst lv) (snd lv)) (seen_from ls st).
Proof.
  induction ls as [|l ls IH]; intros st; cbn [seen_from]; [constructor |].
  apply Forall_app. split; [| apply IH].
  apply Forall_forall. intros lv H. apply in_map_iff in H.
  destruct H as (m & <- & H). cbn [fst snd].
  apply matchAll_matched in H. exact H.
Qed.




Lemma label_eqb_refl (a : label) : label_eqb a a = true.
Proof. destruct a; reflexivity. Qed.



Lemma initial_locals_ok (text : jsstring) :
  locals_ok (initial_locals text) /\ counted (initial_locals text).
Proof.
  split.
  - split; [constructor | split; [reflexivity |]].
    intros l. cbn [counters initial_locals]. unfold initial_counters. lia.
  - intros l. reflexivity.
Qed.




(** * Literal replacement *)

Lemma split_go_nonempty (sep : jsstring) (s : jsstring) :
  forall cur skip, split_go sep cur s skip <> [].
Proof.
  induction s as [|c s IH]; intros cur skip; cbn [split_go]; [discriminate |].
  destruct skip; [| apply IH].
  destruct (starts_with sep (c :: s)); [discriminate | apply IH].
Qed.

Lemma split_go_skip (sep : jsstring) (x : jsstring) :
  forall cur rest,
    split_go sep cur (x ++ rest) (length x) = split_go sep cur rest 0.
Proof.
  induction x as [|c x IH]; intros cur rest; cbn [app length].
  - destruct rest; reflexivity.
  - cbn [split_go]. apply IH.
Qed.

Lemma join_cons (p : jsstring) (ps : list jsstring) (glue : jsstring) :
  ps <> [] -> join (p :: ps) glue = p ++ glue ++ join ps glue.
Proof. destruct ps; [congruence | reflexivity]. Qed.

Lemma join_head (a p : jsstring) (ps : list jsstring) (glue : jsstring) :
  join ((a ++ p) :: ps) glue = a ++ join (p :: ps) glue.
Proof.
  destruct ps as [|q ps]; [reflexivity |].
  rewrite !join_cons by discriminate. apply eq_sym, app_assoc.
Qed.

Lemma join_split_go_acc (sep v : jsstring) (s : jsstring) :
  forall cur,
    join (split_go sep cur s 0) v = rev cur ++ join (split_go sep [] s 0) v.
Proof.
  induction s as [|c s IH]; intros cur; cbn [split_go].
  - cbn [join rev]. rewrite app_nil_r. reflexivity.
  - destruct (starts_with sep (c :: s)).
    + cbn [rev]. rewrite <- (app_nil_r (rev cur)) at 1. apply join_head.
    + rewrite (IH (c :: cur)), (IH [c]). cbn [rev app].
      rewrite <- app_assoc. reflexivity.
Qed.

Lemma replaceAll_nil (k v : jsstring) : k <> [] -> replaceAll [] k v = [].
Proof. destruct k; [congruence | reflexivity]. Qed.

Lemma starts_with_refl_app (k r : jsstring) : starts_with k (k ++ r) = true.
Proof. apply starts_with_app. eexists; reflexivity. Qed.

(** The text begins with [k]: the occurrence is replaced, and the search
    goes on after it. *)
Lemma replaceAll_hit (k v r : jsstring) :
  k <> [] -> replaceAll (k ++ r) k v = v ++ replaceAll r k v.
Proof.
  intros Hk. destruct k as [|c k']; [congruence |].
  unfold replaceAll, split. cbn [app split_go].
  pose proof (starts_with_refl_app (c :: k') r) as S. cbn [app] in S. rewrite S.
  replace (length (c :: k') - 1) with (length k') by (cbn [length]; lia).
  rewrite split_go_skip.
  rewrite join_cons by apply split_go_nonempty. reflexivity.
Qed.

(** The text does not begin with [k]: its first character is kept. *)
Lemma replaceAll_miss (k v : jsstring) (c : char) (r : jsstring) :
  starts_with k (c :: r) = false ->
  replaceAll (c :: r) k v = c :: replaceAll r k v.
Proof.
  intros S. destruct k as [|c' k']; [discriminate |].
  unfold replaceAll, split. cbn [split_go]. rewrite S.
  rewrite join_split_go_acc. reflexivity.
Qed.

Lemma occurs_nil (s : jsstring) : occurs [] s = true.
Proof. destruct s; reflexivity. Qed.

Lemma occurs_false_cons (k : jsstring) (c : char) (s : jsstring) :
  occurs k (c :: s) = false ->
  starts_with k (c :: s) = false /\ occurs k s = false.
Proof. cbn [occurs]. intros H. apply orb_false_iff in H. exact H. Qed.

Lemma occurs_iff (k s : jsstring) :
  occurs k s = true <-> exists a b, s = a ++ k ++ b.
Proof.
  split.
  - induction s as [|c s IH]; cbn [occurs]; intros H; apply orb_true_iff in H.
    + destruct H as [H | H]; [| discriminate].
      apply starts_with_app in H. destruct H as [t ->]. exists [], t. reflexivity.
    + destruct H as [H | H].
      * apply starts_with_app in H. destruct H as [t ->]. exists [], t. reflexivity.
      * destruct (IH H) as (a & b & ->). exists (c :: a), b. reflexivity.
  - intros (a & b & ->). induction a as [|c a IH]; cbn [app].
    + apply starts_with_occurs, starts_with_refl_app.
    + apply occurs_cons, IH.
Qed.

Lemma occurs_false_app (k a b : jsstring) :
  occurs k (a ++ b) = false -> occurs k a = false /\ occurs k b = false.
Proof.
  intros H. split.
  - destruct (occurs k a) eqn:E; [| reflexivity].
    apply occurs_iff in E. destruct E as (x & y & ->).
    assert (T : occurs k ((x ++ k ++ y) ++ b) = true).
    { apply occurs_iff. exists x, (y ++ b). rewrite <- !app_assoc. reflexivity. }
    congruence.
  - destruct (occurs k b) eqn:E; [| reflexivity].
    apply occurs_iff in E. destruct E as (x & y & ->).
    assert (T : occurs k (a ++ x ++ k ++ y) = true).
    { apply occurs_iff. exists (a ++ x), y. rewrite <- !app_assoc. reflexivity. }
    congruence.
Qed.

(** Where [k] does not occur, nothing is replaced. *)
Lemma replaceAll_absent (k v s : jsstring) :
  occurs k s = false -> replaceAll s k v = s.
Proof.
  assert (Hk : occurs k s = false -> k <> []).
  { intros H ->. rewrite occurs_nil in H. discriminate. }
  induction s as [|c s IH]; intros H.
  - apply replaceAll_nil, Hk, H.
  - destruct (occurs_false_cons _ _ _ H) as [S O].
    rewrite replaceAll_miss by exact S. rewrite IH; [reflexivity | | exact O].
    intros _. apply Hk, H.
Qed.

Lemma replaceAll_self (k v : jsstring) : k <> [] -> replaceAll k k v = v.
Proof.
  intros Hk. rewrite <- (app_nil_r k) at 1.
  rewrite replaceAll_hit, replaceAll_nil, app_nil_r by exact Hk. reflexivity.
Qed.

Lemma starts_with_app_l (k a b : jsstring) :
  starts_with k a = true -> starts_with k (a ++ b) = true.
Proof.
  intros H. apply starts_with_app in H. destruct H as [t ->].
  rewrite <- app_assoc. apply starts_with_refl_app.
Qed.

Lemma no_straddle_suffix (k a1 a2 b : jsstring) :
  no_straddle k (a1 ++ a2) b -> no_straddle k a2 b.
Proof.
  intros H x y -> Hy. apply (H (a1 ++ x) y); [apply app_assoc | exact Hy].
Qed.

(** Replacement works on two texts put together as on each of them, when
    no occurrence lies across the two. *)
Lemma replaceAll_app (k v : jsstring) (n : nat) :
  k <> [] ->
  forall a b,
    length a <= n -> no_straddle k a b ->
    replaceAll (a ++ b) k v = replaceAll a k v ++ replaceAll b k v.
Proof.
  intros Hk. induction n as [|n IH]; intros a b L N.
  - destruct a; [| cbn in L; lia]. rewrite replaceAll_nil by exact Hk. reflexivity.
  - destruct a as [|c a]; [rewrite replaceAll_nil by exact Hk; reflexivity |].
    destruct (starts_with k ((c :: a) ++ b)) eqn:S.
    + pose proof (N [] (c :: a) eq_refl ltac:(discriminate) S) as S'.
      apply starts_with_app in S'. destruct S' as [t E]. rewrite E in *.
      rewrite <- app_assoc, !replaceAll_hit by exact Hk.
      rewrite IH; [apply app_assoc | | eapply no_straddle_suffix; exact N].
      rewrite length_app in L. destruct k; [congruence | cbn in L; lia].
    + cbn [app] in *. rewrite replaceAll_miss by exact S.
      assert (S' : starts_with k (c :: a) = false).
      { destruct (starts_with k (c :: a)) eqn:S'; [| reflexivity].
        apply (starts_with_app_l _ _ b) in S'. cbn [app] in S'. congruence. }
      rewrite (replaceAll_miss _ _ _ _ S'). cbn [app]. f_equal.
      apply IH; [cbn in L; lia |].
      apply (no_straddle_suffix k [c] a b). exact N.
Qed.


(** * Strings of the placeholder grammar in a text *)

Lemma agree_sym (a : jsstring) : forall b, agree a b = agree b a.
Proof.
  induction a as [|x a IH]; intros [|y b]; cbn [agree]; try reflexivity.
  rewrite N.eqb_sym, IH. reflexivity.
Qed.

Lemma agree_map_shape (a : jsstring) :
  forall b, agree a b = true -> agree (map shape a) (map shape b) = true.
Proof.
  induction a as [|x a IH]; intros [|y b]; cbn [agree map]; try reflexivity.
  intros H. apply andb_true_iff in H. destruct H as [E H].
  apply N.eqb_eq in E. subst y. rewrite N.eqb_refl. apply IH, H.
Qed.

Lemma agree_eq (a : jsstring) :
  forall b, agree a b = true -> length a = length b -> a = b.
Proof.
  induction a as [|x a IH]; intros [|y b]; cbn [agree length];
    try reflexivity; try discriminate.
  intros H L. apply andb_true_iff in H. destruct H as [E H].
  apply N.eqb_eq in E. subst y. f_equal. apply IH; [exact H | lia].
Qed.

Lemma starts_with_agree (u : jsstring) :
  forall k x, starts_with u (k ++ x) = true -> agree u k = true.
Proof.
  induction u as [|c u IH]; intros [|y k] x; cbn [agree app]; try reflexivity.
  cbn [starts_with]. intros H. apply andb_true_iff in H. destruct H as [E H].
  rewrite E. cbn [andb]. apply (IH k x), H.
Qed.

Lemma shape_digits (ds : jsstring) :
  forallb is_digit ds = true -> map shape ds = repeat 48%N (length ds).
Proof.
  induction ds as [|d ds IH]; cbn [forallb map length repeat]; [reflexivity |].
  intros H. apply andb_true_iff in H. destruct H as [D H].
  unfold shape at 1. rewrite D, IH by exact H. reflexivity.
Qed.

Lemma shape_placeholder (l : label) (ds : jsstring) :
  four_digits ds = true -> map shape (placeholder_text l ds) = template l.
Proof.
  intros F. unfold four_digits in F. apply andb_true_iff in F.
  destruct F as [L D]. apply Nat.eqb_eq in L.
  unfold placeholder_text, template. rewrite !map_app, (shape_digits ds D), L.
  destruct l; reflexivity.
Qed.

Lemma placeholder_text_length (l : label) (ds : jsstring) :
  four_digits ds = true ->
  length (placeholder_text l ds) = length (template l).
Proof.
  intros F. rewrite <- (shape_placeholder l ds F), length_map. reflexivity.
Qed.

(** The templates of the grammar do not overlap: one laid over another at
    an offset inside it disagrees with it somewhere, unless the offset is 0
    and the labels are the same. *)
Lemma template_overlap (l l' : label) (d : nat) :
  d < length (template l) ->
  agree (skipn d (template l)) (template l') = true -> d = 0 /\ l = l'.
Proof.
  assert (C : forallb (fun a => forallb (fun b => forallb (fun n =>
                implb (agree (skipn n (template a)) (template b))
                      ((n =? 0) && label_eqb a b))
              (seq 0 (length (template a)))) labels) labels = true)
    by (vm_compute; reflexivity).
  intros L A. rewrite forallb_forall in C.
  assert (Il : forall x, In x labels) by (intros []; cbn; tauto).
  specialize (C l (Il l)). rewrite forallb_forall in C.
  specialize (C l' (Il l')). rewrite forallb_forall in C.
  specialize (C d). rewrite A in C. cbn [implb] in C.
  assert (T : (d =? 0) && label_eqb l l' = true)
    by (apply C, in_seq; lia).
  apply andb_true_iff in T. destruct T as [T1 T2].
  apply Nat.eqb_eq in T1. split; [exact T1 |].
  destruct l, l'; try discriminate; reflexivity.
Qed.

(** Two strings of the grammar that overlap in a text are one occurrence. *)
Lemma grammar_overlap (g k t u : jsstring) :
  is_placeholder g = true -> is_placeholder k = true ->
  g = t ++ u -> u <> [] -> agree u k = true -> t = [] /\ g = k.
Proof.
  intros Pg Pk E Hu A.
  apply is_placeholder_spec in Pg. destruct Pg as (l & ds & Eg & Fg).
  apply is_placeholder_spec in Pk. destruct Pk as (l' & ds' & Ek & Fk).
  pose proof (shape_placeholder l ds Fg) as Sg.
  pose proof (shape_placeholder l' ds' Fk) as Sk.
  rewrite <- Eg, E, map_app in Sg. rewrite <- Ek in Sk.
  assert (Su : map shape u = skipn (length t) (template l)).
  { rewrite <- Sg, <- (length_map shape t), skipn_app, Nat.sub_diag, skipn_all.
    reflexivity. }
  pose proof (agree_map_shape _ _ A) as A'. rewrite Su, Sk in A'.
  assert (Lt : length t < length (template l)).
  { rewrite <- Sg, length_app, !length_map. destruct u; [congruence | cbn; lia]. }
  destruct (template_overlap l l' (length t) Lt A') as [Z ->].
  apply length_zero_iff_nil in Z. subst t. split; [reflexivity |].
  cbn [app] in E. subst u.
  apply agree_eq; [exact A |].
  rewrite Eg, Ek, !placeholder_text_length by assumption. reflexivity.
Qed.

Lemma is_placeholder_nonempty (k : jsstring) : is_placeholder k = true -> k <> [].
Proof. intros H ->. discriminate. Qed.

Lemma is_placeholder_word (k : jsstring) :
  is_placeholder k = true -> forallb is_word k = true.
Proof.
  intros H. apply is_placeholder_spec in H. destruct H as (l & ds & -> & F).
  apply placeholder_word, four_digits_digits, F.
Qed.

(** A string of the grammar occurs in another only as the whole of it. *)
Lemma grammar_occurs (g k : jsstring) :
  is_placeholder g = true -> is_placeholder k = true ->
  occurs k g = true -> k = g.
Proof.
  intros Pg Pk O. apply occurs_iff in O. destruct O as (a & b & E).
  destruct (grammar_overlap g k a (k ++ b) Pg Pk E) as [_ G].
  - pose proof (is_placeholder_nonempty k Pk). destruct k; [congruence | discriminate].
  - rewrite agree_sym. apply (starts_with_agree _ _ []).
    rewrite <- app_assoc. apply starts_with_refl_app.
  - symmetry. exact G.
Qed.

(** In a text in which the values [v] have been replaced by the placeholder
    [k], a part of a string of the grammar that begins the text either
    began the text before, or is [k], put there. *)
Lemma replaceAll_grammar_prefix (g k v : jsstring) :
  is_placeholder g = true -> is_placeholder k = true -> v <> [] ->
  forall s t u,
    g = t ++ u -> u <> [] ->
    starts_with u (replaceAll s v k) = true ->
    starts_with u s = true \/ (t = [] /\ g = k /\ starts_with v s = true).
Proof.
  intros Pg Pk Hv. induction s as [|c s IH]; intros t u E Hu S.
  - rewrite replaceAll_nil in S by exact Hv. destruct u; [congruence | discriminate].
  - destruct (starts_with v (c :: s)) eqn:Sv.
    + right. pose proof Sv as Sv'.
      apply starts_with_app in Sv'. destruct Sv' as [r Er]. rewrite Er in S.
      rewrite replaceAll_hit in S by exact Hv.
      apply starts_with_agree in S.
      destruct (grammar_overlap g k t u Pg Pk E Hu S) as [T G]. auto.
    + rewrite replaceAll_miss in S by exact Sv.
      destruct u as [|x u]; [congruence |].
      cbn [starts_with] in S. apply andb_true_iff in S. destruct S as [X S].
      destruct u as [|y u].
      * left. cbn [starts_with]. rewrite X. reflexivity.
      * destruct (IH (t ++ [x]) (y :: u)) as [L | (T & _)].
        -- rewrite <- app_assoc. exact E.
        -- discriminate.
        -- exact S.
        -- left. cbn [starts_with] in *. rewrite X. exact L.
        -- destruct t; discriminate.
Qed.

Lemma occurs_app_cases (g a b : jsstring) :
  occurs g (a ++ b) = true ->
  (exists a1 a2, a = a1 ++ a2 /\ a2 <> [] /\ starts_with g (a2 ++ b) = true) \/
  occurs g b = true.
Proof.
  induction a as [|c a IH]; cbn [app]; [auto |].
  cbn [occurs]. intros H. apply orb_true_iff in H. destruct H as [H | H].
  - left. exists [], (c :: a). repeat split; [discriminate | exact H].
  - destruct (IH H) as [(a1 & a2 & -> & N & S) | O]; [| auto].
    left. exists (c :: a1), a2. auto.
Qed.

Lemma occurs_app_r (g a b : jsstring) :
  occurs g b = true -> occurs g (a ++ b) = true.
Proof.
  intros H. induction a as [|c a IH]; [exact H | apply occurs_cons, IH].
Qed.

(** A string of the grammar that occurs after the replacement occurred
    before it, or is the placeholder put in. *)
Lemma replaceAll_occurs (g k v : jsstring) (n : nat) :
  is_placeholder g = true -> is_placeholder k = true -> v <> [] ->
  forall s,
    length s <= n ->
    occurs g (replaceAll s v k) = true -> occurs g s = true \/ g = k.
Proof.
  intros Pg Pk Hv. induction n as [|n IH]; intros s L O.
  - destruct s; [| cbn in L; lia]. rewrite replaceAll_nil in O by exact Hv.
    pose proof (is_placeholder_nonempty g Pg). destruct g; [congruence | discriminate].
  - destruct s as [|c s].
    { rewrite replaceAll_nil in O by exact Hv.
      pose proof (is_placeholder_nonempty g Pg). destruct g; [congruence | discriminate]. }
    destruct (starts_with v (c :: s)) eqn:Sv.
    + apply starts_with_app in Sv. destruct Sv as [r Er]. rewrite Er in *.
      rewrite replaceAll_hit in O by exact Hv.
      apply occurs_app_cases in O.
      destruct O as [(a1 & a2 & Ek & N & S) | O].
      * right. apply starts_with_agree in S. rewrite agree_sym in S.
        destruct (grammar_overlap k g a1 a2 Pk Pg Ek N S) as [_ G]. auto.
      * destruct (IH r) as [H | H]; [| exact O | | auto].
        -- rewrite length_app in L. destruct v; [congruence | cbn in L; lia].
        -- left. apply occurs_app_r, H.
    + rewrite replaceAll_miss in O by exact Sv.
      cbn [occurs] in O. apply orb_true_iff in O. destruct O as [S | O].
      * rewrite <- (replaceAll_miss v k c s Sv) in S.
        destruct (replaceAll_grammar_prefix g k v Pg Pk Hv (c :: s) [] g
                    eq_refl (is_placeholder_nonempty g Pg) S) as [H | (_ & G & _)];
          [left; apply starts_with_occurs, H | auto].
      * destruct (IH s) as [H | H]; [cbn in L; lia | exact O | | auto].
        left. apply occurs_cons, H.
Qed.

(** Putting the values back where the placeholder [k] stands undoes the
    replacement, in a text in which [k] did not occur. *)
Lemma replaceAll_undo (k v : jsstring) (n : nat) :
  is_placeholder k = true -> v <> [] ->
  forall s,
    length s <= n -> occurs k s = false ->
    replaceAll (replaceAll s v k) k v = s.
Proof.
  intros Pk Hv. pose proof (is_placeholder_nonempty k Pk) as Hk.
  induction n as [|n IH]; intros s L O.
  - destruct s; [| cbn in L; lia]. rewrite !replaceAll_nil by assumption. reflexivity.
  - destruct s as [|c s]; [rewrite !replaceAll_nil by assumption; reflexivity |].
    destruct (starts_with v (c :: s)) eqn:Sv.
    + apply starts_with_app in Sv. destruct Sv as [r Er]. rewrite Er in *.
      rewrite !replaceAll_hit by assumption. f_equal.
      apply IH; [| apply (occurs_false_app k v r O)].
      rewrite length_app in L. destruct v; [congruence | cbn in L; lia].
    + assert (Sk : starts_with k (replaceAll (c :: s) v k) = false).
      { destruct (starts_with k (replaceAll (c :: s) v k)) eqn:Sk; [| reflexivity].
        destruct (replaceAll_grammar_prefix k k v Pk Pk Hv (c :: s) [] k
                    eq_refl Hk Sk) as [H | (_ & _ & H)]; [| congruence].
        apply starts_with_occurs in H. congruence. }
      rewrite replaceAll_miss in * by exact Sv.
      rewrite replaceAll_miss by exact Sk. f_equal.
      apply IH; [cbn in L; lia |]. apply (occurs_false_cons k c s O).
Qed.


(** * Undoing a redaction *)

Lemma counters_le (st : Locals) (l : label) :
  locals_ok st -> (counters st l <= 1 + N.of_nat (length (mapping st)))%N.
Proof.
  intros (_ & C & P). unfold minted in C.
  pose proof (P SSN). pose proof (P EMAIL). pose proof (P PHONE_NUMBER).
  destruct l; lia.
Qed.

Lemma matched_by_nonempty (l : label) (v : jsstring) : matched_by l v -> v <> [].
Proof.
  intros (prev & after & M) ->. apply match_at_min in M.
  pose proof (min_len_pattern l). cbn [length] in M. lia.
Qed.

Lemma fold_redactSeen_keys (k : jsstring) (s : list (label * jsstring)) :
  forall st,
    In k (keys (mapping st)) ->
    In k (keys (mapping (fold_left redactSeen s st))).
Proof.
  induction s as [|lv s IH]; intros st H; [exact H |].
  cbn [fold_left]. apply IH. unfold redactSeen. apply redactMatch_keys, H.
Qed.

Lemma redactSeen_restorable (text : jsstring) (G : jsstring -> Prop)
    (st : Locals) (lv : label * jsstring) :
  (forall g, G g -> is_placeholder g = true) ->
  locals_ok st -> restorable text G st ->
  matched_by (fst lv) (snd lv) ->
  (forall k, In k (keys (mapping (redactSeen st lv))) -> G k) ->
  restorable text G (redactSeen st lv).
Proof.
  destruct lv as [l v]. cbn [fst snd]. intros HG Ok R M Gk.
  unfold redactSeen in *. cbn [fst snd] in *. unfold redactMatch in *.
  destruct (includes (values (mapping st)) v); [exact R |].
  pose proof (next_placeholder_fresh st l Ok) as Fresh.
  set (k := placeholder_of l (counters st l)) in *.
  unfold restorable in *. cbn [mapping modified] in *.
  rewrite (set_fresh _ k v Fresh) in *.
  change (join (split (modified st) v) k) with (replaceAll (modified st) v k).
  intros Small. rewrite length_app in Small. cbn [length] in Small.
  destruct R as [J K]; [lia |].
  pose proof (counters_le st l Ok) as C.
  assert (Pk : is_placeholder k = true).
  { apply (is_placeholder_complete l (pad4 (counters st l))), pad4_short. lia. }
  assert (Hv : v <> []) by (eapply matched_by_nonempty; exact M).
  assert (Gk' : G k).
  { apply Gk. unfold keys. rewrite map_app. apply in_or_app. right. left. reflexivity. }
  assert (O : occurs k (modified st) = false).
  { destruct (occurs k (modified st)) eqn:O; [| reflexivity].
    destruct (Fresh (K k Gk' O)). }
  split.
  - unfold unredactLiteral. rewrite fold_right_app. cbn [fold_right fst snd].
    rewrite (replaceAll_undo k v (length (modified st))) by auto. exact J.
  - intros g Gg Og. unfold keys. rewrite map_app. apply in_or_app.
    destruct (replaceAll_occurs g k v (length (modified st)) (HG g Gg) Pk Hv
                (modified st) (le_n _) Og) as [H | H].
    + left. apply K; assumption.
    + right. left. symmetry. exact H.
Qed.

Lemma fold_redactSeen_restorable (text : jsstring) (G : jsstring -> Prop) :
  (forall g, G g -> is_placeholder g = true) ->
  forall s st,
    locals_ok st -> restorable text G st ->
    Forall (fun lv => matched_by (fst lv) (snd lv)) s ->
    (forall k, In k (keys (mapping (fold_left redactSeen s st))) -> G k) ->
    restorable text G (fold_left redactSeen s st).
Proof.
  intros HG. induction s as [|lv s IH]; intros st Ok R M Gk; [exact R |].
  inversion M as [|? ? Mlv Ms]; subst. cbn [fold_left] in *.
  apply IH; try assumption.
  - apply redactMatch_locals_ok; assumption.
  - apply redactSeen_restorable; try assumption.
    intros k H. apply Gk, fold_redactSeen_keys, H.
Qed.

Lemma free_of_keys_spec (m : Mapping) (s : jsstring) :
  free_of_keys m s = true <-> forall k, In k (keys m) -> occurs k s = false.
Proof.
  unfold free_of_keys. rewrite forallb_forall. split; intros H k Hk.
  - apply negb_true_iff, H, Hk.
  - apply negb_true_iff, H, Hk.
Qed.

(** Every key of the mapping [redactText] returns is a string of the
    grammar while the mapping has fewer than 10000 entries. *)
Lemma redactText_keys_grammar (text : jsstring) (k : jsstring) :
  (N.of_nat (length (mapping_of (redactText text))) < 10000)%N ->
  In k (keys (mapping_of (redactText text))) -> is_placeholder k = true.
Proof.
  intros Small H. unfold keys in H. apply in_map_iff in H.
  destruct H as (kv & <- & Hin).
  destruct (redactText_entry_counter text kv Hin) as (l & n & -> & R).
  apply (is_placeholder_complete l (pad4 n)), pad4_short. lia.
Qed.

(** Undoing the entries of the mapping one after the other gives the text
    back, when no key of the mapping occurs in the text. *)
Lemma redactText_unredactLiteral (text : jsstring) :
  (N.of_nat (length (mapping_of (redactText text))) < 10000)%N ->
  free_of_keys (mapping_of (redactText text)) text = true ->
  unredactLiteral (redactedText (redactText text)) (mapping_of (redactText text))
  = text.
Proof.
  intros Small Free.
  pose proof (fun g => redactText_keys_grammar text g Small) as HG.
  rewrite free_of_keys_spec in Free.
  revert Small Free HG. rewrite redactText_seen. cbn [mapping_of redactedText].
  intros Small Free HG.
  destruct (initial_locals_ok text) as [Ok _].
  apply (fold_redactSeen_restorable text
           (fun g => In g (keys (mapping (fold_left redactSeen (seen text)
                                            (initial_locals text)))))
           HG (seen text) (initial_locals text) Ok).
  - intros _. split; [reflexivity |].
    intros g Gg O. cbn [initial_locals modified] in O.
    rewrite (Free g Gg) in O. discriminate.
  - apply seen_from_matched.
  - auto.
  - exact Small.
Qed.

(** * Literal and one-shot restoration *)

Lemma no_straddle_fits (k a b : jsstring) :
  (forall a1 a2 k2,
      a = a1 ++ a2 -> a2 <> [] -> k = a2 ++ k2 -> k2 <> [] ->
      starts_with k2 b = true -> False) ->
  no_straddle k a b.
Proof.
  intros H a1 a2 E N S. apply starts_with_app in S. destruct S as [t S].
  apply app_eq_app in S. destruct S as (x & [[E1 E2] | [E1 E2]]).
  - apply starts_with_app. exists x. exact E1.
  - destruct x as [|c x].
    + rewrite app_nil_r in E1. subst a2. apply starts_with_app. exists [].
      symmetry. apply app_nil_r.
    + exfalso. apply (H a1 a2 (c :: x) E N E1); [discriminate |].
      apply starts_with_app. exists t. exact E2.
Qed.

Lemma forallb_word_last (a2 k2 : jsstring) (prev : option char) :
  forallb is_word (a2 ++ k2) = true -> a2 <> [] ->
  test_opt is_word (last_of prev a2) = true.
Proof.
  intros W N. rewrite forallb_app in W. apply andb_true_iff in W.
  apply last_of_word; tauto.
Qed.

(** No occurrence of a word lies across the end of a text that ends outside
    [\w], or across the start of one that begins outside [\w]. *)
Lemma no_straddle_ends_clean (k a b : jsstring) :
  forallb is_word k = true -> ends_clean a = true -> no_straddle k a b.
Proof.
  intros W C. apply no_straddle_fits. intros a1 a2 k2 -> N -> _ _.
  pose proof (forallb_word_last a2 k2 (last_of None a1) W N) as T.
  unfold ends_clean in C. rewrite last_of_app in C. rewrite T in C. discriminate.
Qed.

Lemma no_straddle_starts_clean (k a b : jsstring) :
  forallb is_word k = true -> starts_clean b = true -> no_straddle k a b.
Proof.
  intros W C. apply no_straddle_fits. intros a1 a2 k2 _ _ -> N S.
  rewrite forallb_app in W. apply andb_true_iff in W. destruct W as [_ W].
  destruct k2 as [|c k2]; [congruence |].
  destruct b as [|d b]; [discriminate |].
  cbn [starts_with forallb] in *. apply andb_true_iff in S, W.
  destruct S as [E _], W as [Wc _]. apply N.eqb_eq in E. subst d.
  unfold starts_clean in C. cbn [hd_error test_opt] in C. rewrite Wc in C.
  discriminate.
Qed.

Lemma delimited_map (f : jsstring -> jsstring) (ws : list jsstring) :
  forall ts, delimited ws (map f ts) = delimited ws ts.
Proof.
  induction ws as [|w ws IH]; intros ts; [reflexivity |].
  destruct ws as [|w' ws']; destruct ts as [|t ts]; try reflexivity.
  change (delimited (w :: w' :: ws') (map f (t :: ts)))
    with (ends_clean w && starts_clean w' &&
          match map f ts with [] => true | _ :: _ => negb (is_nil w') end &&
          delimited (w' :: ws') (map f ts)).
  rewrite IH. destruct ts; reflexivity.
Qed.

(** What follows a token in a text cut by tokens that stand alone begins
    outside [\w], or is empty. *)
Lemma delimited_starts_clean (w' : jsstring) (ws' ts : list jsstring) :
  starts_clean w' = true ->
  match ts with [] => true | _ :: _ => negb (is_nil w') end = true ->
  delimited (w' :: ws') ts = true ->
  starts_clean (interleave (w' :: ws') ts) = true.
Proof.
  intros C N D. destruct ts as [|t ts].
  - destruct ws'; [exact C | discriminate].
  - destruct w' as [|c w']; [discriminate |].
    destruct ws'; [discriminate |]. exact C.
Qed.

(** Literal replacement of a placeholder in a text cut by tokens that stand
    alone: token by token. *)
Lemma replaceAll_interleave (k v : jsstring) :
  is_placeholder k = true ->
  forall ws ts,
    delimited ws ts = true ->
    Forall (fun w => occurs k w = false) ws ->
    Forall (fun t => t = k \/ occurs k t = false) ts ->
    replaceAll (interleave ws ts) k v = interleave ws (map (swap k v) ts).
Proof.
  intros Pk. pose proof (is_placeholder_nonempty k Pk) as Hk.
  pose proof (is_placeholder_word k Pk) as W.
  induction ws as [|w ws IH]; intros ts D Fw Ft; [discriminate |].
  inversion Fw as [|? ? Ow Fw']; subst.
  destruct ws as [|w' ws'].
  - destruct ts; [| discriminate]. cbn [interleave map].
    apply replaceAll_absent, Ow.
  - destruct ts as [|t ts]; [discriminate |].
    inversion Ft as [|? ? Ot Ft']; subst.
    cbn [delimited] in D. apply andb_true_iff in D. destruct D as [D Dr].
    apply andb_true_iff in D. destruct D as [D Dn].
    apply andb_true_iff in D. destruct D as [Cw Cw'].
    change (interleave (w :: w' :: ws') (t :: ts))
      with (w ++ t ++ interleave (w' :: ws') ts).
    change (interleave (w :: w' :: ws') (map (swap k v) (t :: ts)))
      with (w ++ swap k v t ++ interleave (w' :: ws') (map (swap k v) ts)).
    rewrite (replaceAll_app k v (length w)); [| exact Hk | lia |
      apply no_straddle_ends_clean; assumption].
    rewrite (replaceAll_app k v (length t)); [| exact Hk | lia |
      apply no_straddle_starts_clean;
        [exact W | apply delimited_starts_clean; assumption]].
    rewrite IH by assumption. rewrite (replaceAll_absent k v w Ow).
    f_equal. f_equal. unfold swap.
    destruct Ot as [-> | Ot].
    + rewrite eqb_str_refl. apply replaceAll_self, Hk.
    + destruct (eqb_str t k) eqn:E.
      * apply eqb_str_eq in E. subst t.
        rewrite (starts_with_occurs k k) in Ot; [discriminate |].
        rewrite <- (app_nil_r k) at 2. apply starts_with_refl_app.
      * apply replaceAll_absent, Ot.
Qed.


Lemma lookup_app (m1 m2 : Mapping) (k : jsstring) :
  lookup (m1 ++ m2) k =
  match lookup m1 k with Some v => Some v | None => lookup m2 k end.
Proof.
  induction m1 as [|[k' v'] m1 IH]; cbn [app lookup]; [reflexivity |].
  destruct (eqb_str k' k); [reflexivity | exact IH].
Qed.

Lemma lookup_None (m : Mapping) (k : jsstring) :
  ~ In k (keys m) -> lookup m k = None.
Proof.
  intros H. destruct (lookup m k) as [v|] eqn:E; [| reflexivity].
  apply lookup_In in E. destruct H. unfold keys.
  change k with (fst (k, v)). apply in_map, E.
Qed.

Lemma free_of_keys_snoc (m : Mapping) (k v s : jsstring) :
  free_of_keys (m ++ [(k, v)]) s = true <->
  free_of_keys m s = true /\ occurs k s = false.
Proof.
  unfold free_of_keys, keys. rewrite map_app, forallb_app. cbn [map forallb fst].
  rewrite andb_true_iff, andb_true_r, negb_true_iff. reflexivity.
Qed.

Lemma free_not_key (m : Mapping) (v : jsstring) :
  free_of_keys m v = true -> ~ In v (keys m).
Proof.
  intros F H. rewrite free_of_keys_spec in F. specialize (F v H).
  rewrite (starts_with_occurs v v) in F; [discriminate |].
  rewrite <- (app_nil_r v) at 2. apply starts_with_refl_app.
Qed.

(** Undoing the entries one after the other, on a text cut by placeholders
    that stand alone, restores token by token, as the one-shot restoration
    does: when no key occurs in a piece between the tokens or in a value. *)
Lemma unredactLiteral_interleave (m : Mapping) :
  forall ws ts,
    NoDup (keys m) ->
    (forall k, In k (keys m) -> is_placeholder k = true) ->
    delimited ws ts = true ->
    Forall (fun w => free_of_keys m w = true) ws ->
    Forall (fun t => is_placeholder t = true \/ free_of_keys m t = true) ts ->
    Forall (fun v => free_of_keys m v = true) (values m) ->
    unredactLiteral (interleave ws ts) m = interleave ws (map (restore m) ts).
Proof.
  induction m as [|[k v] m IH] using rev_ind; intros ws ts ND HP D Fw Ft Fv.
  - cbn [unredactLiteral fold_right]. f_equal. symmetry.
    rewrite <- (map_id ts) at 2. apply map_ext. reflexivity.
  - unfold keys in ND, HP. rewrite map_app in ND, HP. cbn [map fst] in ND, HP.
    fold (keys m) in ND, HP.
    assert (Nk : ~ In k (keys m)).
    { intros H. apply NoDup_remove_2 in ND. rewrite app_nil_r in ND. auto. }
    assert (ND' : NoDup (keys m)).
    { apply NoDup_remove_1 in ND. rewrite app_nil_r in ND. exact ND. }
    assert (Pk : is_placeholder k = true).
    { apply HP, in_or_app. right. left. reflexivity. }
    unfold values in Fv. rewrite map_app, Forall_app in Fv. cbn [map snd] in Fv.
    destruct Fv as [Fv Fv1]. inversion Fv1 as [|? ? Fvk _]; subst.
    apply free_of_keys_snoc in Fvk. destruct Fvk as [Fvm _].
    unfold unredactLiteral. rewrite fold_right_app. cbn [fold_right fst snd].
    fold (unredactLiteral (replaceAll (interleave ws ts) k v) m).
    rewrite (replaceAll_interleave k v Pk ws ts D).
    + rewrite IH.
      * f_equal. rewrite map_map. apply map_ext. intros t. unfold swap, restore.
        rewrite lookup_app. cbn [lookup].
        destruct (eqb_str t k) eqn:E.
        -- apply eqb_str_eq in E. subst t.
           rewrite (lookup_None m v (free_not_key m v Fvm)).
           rewrite (lookup_None m k Nk), eqb_str_refl. reflexivity.
        -- assert (E' : eqb_str k t = false).
           { apply eqb_str_neq. apply eqb_str_neq in E. congruence. }
           rewrite E'. destruct (lookup m t); reflexivity.
      * exact ND'.
      * intros g H. apply HP, in_or_app. left. exact H.
      * rewrite delimited_map. exact D.
      * eapply Forall_impl; [| exact Fw]. intros w H.
        apply free_of_keys_snoc in H. tauto.
      * apply Forall_map. eapply Forall_impl; [| exact Ft].
        intros t H. unfold swap. destruct (eqb_str t k); [right; exact Fvm |].
        destruct H as [H | H]; [left; exact H |].
        right. apply free_of_keys_snoc in H. tauto.
      * apply Forall_forall. intros x Hx. rewrite Forall_forall in Fv.
        specialize (Fv x Hx). apply free_of_keys_snoc in Fv. tauto.
    + eapply Forall_impl; [| exact Fw]. intros w H.
      apply free_of_keys_snoc in H. tauto.
    + eapply Forall_impl; [| exact Ft]. intros t [H | H].
      * destruct (occurs k t) eqn:O; [| right; reflexivity].
        left. symmetry. apply grammar_occurs; assumption.
      * right. apply free_of_keys_snoc in H. tauto.
Qed.

(** C3, as amended.  When the catalog finds nothing in a text, redaction
    returns the text with the empty mapping and restoration returns the
    text.  And for every text: when the mapping has fewer than 10000
    entries, no key of it occurs in the text or in one of its values, and
    the redacted text is pieces between placeholders, every placeholder
    standing as a whole word and no key occurring in a piece, restoration
    of the redacted text returns the text. *)
Theorem roundtrip_when_placeholders_stand_alone :
  (forall text,
      (forall l, matchAll text (new_RegExp (PII_PATTERNS fresh_globals l)) = []) ->
      redactText text = {| redactedText := text; mapping_of := [] |} /\
      unredactOnce (redactedText (redactText text)) (mapping_of (redactText text))
        = text) /\
  (forall text ws toks,
      (N.of_nat (length (mapping_of (redactText text))) < 10000)%N ->
      free_of_keys (mapping_of (redactText text)) text = true ->
      forallb (free_of_keys (mapping_of (redactText text)))
        (values (mapping_of (redactText text))) = true ->
      redactedText (redactText text) = interleave ws toks ->
      delimited ws toks = true ->
      forallb is_placeholder toks = true ->
      forallb (free_of_keys (mapping_of (redactText text))) ws = true ->
      unredactOnce (redactedText (redactText text)) (mapping_of (redactText text))
        = text).
Proof.
  split.
  - intros text H. rewrite (redactText_no_match text H). split; [reflexivity |].
    apply unredactOnce_no_key. reflexivity.
  - intros text ws toks Small Ft Fv R D P Fw.
    pose proof (redactText_unredactLiteral text Small Ft) as L.
    rewrite R in *. rewrite unredactOnce_interleave by assumption.
    rewrite map_unredactOnce_free by assumption.
    rewrite <- L at 2. symmetry.
    apply unredactLiteral_interleave.
    + apply redactText_mapping_ok.
    + intros k. apply redactText_keys_grammar, Small.
    + exact D.
    + apply Forall_forall. rewrite forallb_forall in Fw. exact Fw.
    + apply Forall_forall. rewrite forallb_forall in P. intros t H. left. auto.
    + apply Forall_forall. rewrite forallb_forall in Fv. exact Fv.
Qed.

Lemma roundtrip_when_placeholders_stand_alone_witness :
  unredactOnce (redactedText (redactText scenario)) (mapping_of (redactText scenario))
    = scenario /\
  unredactOnce (redactedText (redactText (str "No sensitive data here.")))
    (mapping_of (redactText (str "No sensitive data here.")))
    = str "No sensitive data here.".
Proof.
  split.
  - apply (proj2 roundtrip_when_placeholders_stand_alone scenario
             [str "Contact "; str " or "; str ", SSN "; []]
             [str "PHONE_NUMBER_0001"; str "EMAIL_0001"; str "SSN_0001"]);
      vm_compute; reflexivity.
  - apply (proj1 roundtrip_when_placeholders_stand_alone (str "No sensitive data here.")).
    intros l; destruct l; vm_compute; reflexivity.
Defined.

(** C3 as stated fails.  A value that occurs again glued to a word
    character is replaced there too, and the placeholder put there is not
    one [PLACEHOLDER_RE] finds.  A value of a later pass that contains a
    placeholder of an earlier one is restored with the placeholder in it.
    A key that the text has in it already is restored as if it had been
    put there. *)
Lemma roundtrip_counterexample :
  unredactOnce (redactedText (redactText (str "a@b.com a@b.com5")))
    (mapping_of (redactText (str "a@b.com a@b.com5")))
  <> str "a@b.com a@b.com5" /\
  unredactOnce (redactedText (redactText (str "123-45-6789@b.com")))
    (mapping_of (redactText (str "123-45-6789@b.com")))
  <> str "123-45-6789@b.com" /\
  unredactOnce (redactedText (redactText (str "SSN_0001 is not 123-45-6789")))
    (mapping_of (redactText (str "SSN_0001 is not 123-45-6789")))
  <> str "SSN_0001 is not 123-45-6789".
Proof. repeat split; vm_compute; discriminate. Qed.
